(** * listCommits: the ancestry walk of [src/api/listCommits.js]

    A shallow embedding of [listCommits] and of its inner closure [walk],
    followed by the properties of the walk.  The collaborators the file
    imports (reference resolution, object reading, the decoders, the shallow
    file) are taken as an interface; the walk itself is transcribed
    statement by statement.  The [console.log] calls write to the console
    only and are left out. *)

From stdpp Require Import gmap strings list.

Local Open Scope string_scope.

(** ** Errors and outcomes *)

(** The values that can be thrown.  [ObjectTypeError] is the only error the
    file constructs itself ([new ObjectTypeError(oid, type, 'commit')]);
    [TypeError] is what the engine raises on [undefined.children]; anything
    a collaborator throws is a [CollaboratorError]. *)
Inductive ErrorKind : Type :=
| ObjectTypeError (oid actual expected : string)
| TypeError (message : string)
| CollaboratorError (name message : string).

(** A thrown error object: what it is, and its [caller] property, which is
    absent until somebody assigns it. *)
Record Error : Type := mkError { kind : ErrorKind; caller : option string }.

Definition new_ObjectTypeError (oid actual expected : string) : Error :=
  {| kind := ObjectTypeError oid actual expected; caller := None |}.

Definition new_TypeError (message : string) : Error :=
  {| kind := TypeError message; caller := None |}.

(** What a call to a collaborator gives back: it throws or it returns. *)
Definition result (A : Type) : Type := (Error + A)%type.

(** What a run of the code of this file gives back.  [OutOfFuel] is the
    model's account of a recursion that has not returned within the depth
    it was given; it is neither a value nor a thrown error. *)
Inductive outcome (A : Type) : Type :=
| Ok (a : A)
| Throw (e : Error)
| OutOfFuel.
Arguments Ok {A} a.
Arguments Throw {A} e.
Arguments OutOfFuel {A}.

#[global] Instance outcome_ret : MRet outcome := @Ok.
#[global] Instance outcome_bind : MBind outcome := λ A B f m,
  match m with
  | Ok a => f a
  | Throw e => Throw e
  | OutOfFuel => OutOfFuel
  end.

(** [await c] / a plain call: a collaborator's throw becomes ours. *)
Definition await {A : Type} (r : result A) : outcome A :=
  match r with
  | inl e => Throw e
  | inr a => Ok a
  end.

(** [try { body } catch (err) { handler }]. *)
Definition try_catch {A : Type} (body : outcome A) (handler : Error → outcome A) : outcome A :=
  match body with
  | Throw err => handler err
  | other => other
  end.

(** ** Data *)

(** [new FileSystem(fs)] wraps whatever client it was handed. *)
Record FileSystem (FsClient : Type) : Type := new_FileSystem { client : option FsClient }.
Arguments new_FileSystem {FsClient} client.
Arguments client {FsClient} _.

(** What [readObject] resolves to: [{ type, object }]. *)
Record GitObject (Payload : Type) : Type := mkGitObject { type : string; object : Payload }.
Arguments mkGitObject {Payload} type object.
Arguments type {Payload} _.
Arguments object {Payload} _.

(** The collaborators imported by the file.  Object ids, reference names and
    paths are JS strings.  The [cache] object handed to [readObject] only
    memoises reads and is left out. *)
Record Collaborators (FsClient Payload : Type) : Type := {
  (** [join(dir, '.git')]; it throws when it is handed a [dir] it cannot
      work on *)
  join : option string → string → result string;
  (** [assertParameter(name, value)] *)
  assertParameter : ∀ A : Type, string → option A → result unit;
  (** [listBranches({ fs, dir, gitdir })] *)
  listBranches : FileSystem FsClient → option string → string → result (list string);
  (** [GitShallowManager.read({ fs, gitdir })], a [Set] of oids *)
  GitShallowManager_read : FileSystem FsClient → string → result (gset string);
  (** [GitRefManager.resolve({ fs, gitdir, ref })] *)
  GitRefManager_resolve : FileSystem FsClient → string → string → result string;
  (** [readObject({ fs, cache, gitdir, oid })] *)
  readObject : FileSystem FsClient → string → string → result (GitObject Payload);
  (** [GitAnnotatedTag.from(object).headers().object] *)
  GitAnnotatedTag_object : Payload → result string;
  (** [GitCommit.from(object).headers().parent] *)
  GitCommit_parent : Payload → result (list string)
}.
Arguments join {FsClient Payload} _ _ _.
Arguments assertParameter {FsClient Payload} _ {A} _ _.
Arguments listBranches {FsClient Payload} _ _ _ _.
Arguments GitShallowManager_read {FsClient Payload} _ _ _.
Arguments GitRefManager_resolve {FsClient Payload} _ _ _ _.
Arguments readObject {FsClient Payload} _ _ _ _.
Arguments GitAnnotatedTag_object {FsClient Payload} _ _.
Arguments GitCommit_parent {FsClient Payload} _ _.

(** The argument object of [listCommits]; a missing property is [None]. *)
Record Args (FsClient : Type) : Type := mkArgs {
  fs : option FsClient;
  dir : option string;
  gitdir : option string
}.
Arguments mkArgs {FsClient} fs dir gitdir.
Arguments fs {FsClient} _.
Arguments dir {FsClient} _.
Arguments gitdir {FsClient} _.

(** One record of the result: [{ children: [...] }]. *)
Record Entry : Type := mkEntry { children : list string }.

(** The state the walk threads: the [visited] object it mutates, and the
    trace of the oids handed to [readObject], oldest first. *)
Record WalkState : Type := mkWalkState {
  visited : gmap string Entry;
  reads : list string
}.

(** ** Operations on the [visited] object and on [Set]s *)

(** [visited.hasOwnProperty(k)] and [k in visited].  Keys are object ids
    (hex digests), never the name of a property of [Object.prototype], so
    on the plain object [visited] both are: is [k] one of its keys. *)
Definition hasOwnProperty (visited : gmap string Entry) (k : string) : bool :=
  bool_decide (is_Some (visited !! k)).

Definition in_object (k : string) (visited : gmap string Entry) : bool :=
  bool_decide (is_Some (visited !! k)).

(** [visited[k] = { children: [] }] *)
Definition set_empty_entry (k : string) (visited : gmap string Entry) : gmap string Entry :=
  <[k := {| children := [] |}]> visited.

(** [visited[k].children.push(oid)]; on a missing key [visited[k]] is
    [undefined] and reading [.children] throws. *)
Definition children_push (k oid : string) (visited : gmap string Entry) : outcome (gmap string Entry) :=
  match visited !! k with
  | Some entry => Ok (<[k := {| children := children entry ++ [oid] |}]> visited)
  | None => Throw (new_TypeError "Cannot read properties of undefined")
  end.

(** Lines 93-96 taken together: the record of [k] is created if it is
    missing, then [oid] is appended to its [children]. *)
Definition add_child (k oid : string) (visited : gmap string Entry) : gmap string Entry :=
  <[k := {| children := children (default {| children := [] |} (visited !! k)) ++ [oid] |}]> visited.

(** [set.add(x)] on a JS [Set], kept as the list of its members in
    insertion order: a member is added once. *)
Definition Set_add (x : string) (set : list string) : list string :=
  if bool_decide (x ∈ set) then set else set ++ [x].

(** [readObject] is called: the oid joins the trace. *)
Definition record_read (oid : string) (st : WalkState) : WalkState :=
  {| visited := visited st; reads := reads st ++ [oid] |}.

Section ListCommits.
Context {FsClient Payload : Type}.
Variable G : Collaborators FsClient Payload.

Section Walk.
(** The variables the closure [walk] captures. *)
Variable newFS : FileSystem FsClient.
Variable gitdir_ : string.
Variable shallows : gset string.

(** The body of [for (let parentOid of parents) { ... }] (lines 85-97),
    with the recursive call as a parameter. *)
Fixpoint walk_parents (walk : string → WalkState → outcome WalkState)
    (oid : string) (parents : list string) (st : WalkState) : outcome WalkState :=
  match parents with
  | [] => Ok st
  | parentOid :: rest =>
      st1 ← (if negb (hasOwnProperty (visited st) parentOid)
             then walk parentOid st
             else Ok st);
      let visited1 :=
        if negb (in_object parentOid (visited st1))
        then set_empty_entry parentOid (visited st1)
        else visited st1 in
      visited2 ← children_push parentOid oid visited1;
      walk_parents walk oid rest {| visited := visited2; reads := reads st1 |}
  end.

(** [async function walk(oid)] (lines 70-99).  [fuel] bounds the depth
    of the recursion. *)
Fixpoint walk (fuel : nat) (oid : string) (st : WalkState) : outcome WalkState :=
  match fuel with
  | O => OutOfFuel
  | S fuel' =>
      let st := record_read oid st in
      o ← await (readObject G newFS gitdir_ oid);
      if bool_decide (type o = "tag") then
        commit ← await (GitAnnotatedTag_object G (object o));
        walk fuel' commit st
      else if bool_decide (type o ≠ "commit") then
        Throw (new_ObjectTypeError oid (type o) "commit")
      else if negb (bool_decide (oid ∈ shallows)) then
        parents ← await (GitCommit_parent G (object o));
        walk_parents (walk fuel') oid parents st
      else Ok st
  end.

(** [for (const oid of startingSet) { visited[oid] = { children: [] };
    await walk(oid) }] (lines 101-104). *)
Fixpoint walk_startingSet (fuel : nat) (startingSet : list string)
    (st : WalkState) : outcome WalkState :=
  match startingSet with
  | [] => Ok st
  | oid :: rest =>
      st' ← walk fuel oid
             {| visited := set_empty_entry oid (visited st); reads := reads st |};
      walk_startingSet fuel rest st'
  end.

(** *** The object graph the walk sees *)

(** [oid] holds an annotated tag whose header names [target]. *)
Definition is_tag (oid target : string) : Prop :=
  ∃ o, readObject G newFS gitdir_ oid = inr o ∧ type o = "tag" ∧
       GitAnnotatedTag_object G (object o) = inr target.

(** [oid] holds a commit whose header lists [parents]. *)
Definition is_commit (oid : string) (parents : list string) : Prop :=
  ∃ o, readObject G newFS gitdir_ oid = inr o ∧ type o = "commit" ∧
       GitCommit_parent G (object o) = inr parents.

(** A parent edge the walk follows: [child] is a commit outside the shallow
    boundary and lists [parent]. *)
Definition parent_edge (child parent : string) : Prop :=
  ∃ parents, is_commit child parents ∧ (child ∉ shallows) ∧ (parent ∈ parents).

(** [peels tags oid target]: dereferencing [oid] goes through the tag
    objects [tags], in this order, and ends at [target]. *)
Inductive peels : list string → string → string → Prop :=
| peels_done oid : peels [] oid oid
| peels_tag oid next tags target :
    is_tag oid next → peels tags next target → peels (oid :: tags) oid target.

(** Every key of [visited] has all the parents the walk would follow from
    it among the keys. *)
Definition closed (visited : gmap string Entry) : Prop :=
  ∀ k x, k ∈ dom visited → parent_edge k x → x ∈ dom visited.
End Walk.

(** [for (const ref of start) startingSet.add(await resolve(ref))]
    (lines 56-58). *)
Fixpoint resolve_start (newFS : FileSystem FsClient) (gitdir_ : string)
    (start : list string) (startingSet : list string) : outcome (list string) :=
  match start with
  | [] => Ok startingSet
  | ref :: rest =>
      oid ← await (GitRefManager_resolve G newFS gitdir_ ref);
      resolve_start newFS gitdir_ rest (Set_add oid startingSet)
  end.

(** [for (const ref of finish) { try { ... finishingSet.add(oid) }
    catch (err) { } }] (lines 59-65). *)
Fixpoint resolve_finish (newFS : FileSystem FsClient) (gitdir_ : string)
    (finish : list string) (finishingSet : list string) : outcome (list string) :=
  match finish with
  | [] => Ok finishingSet
  | ref :: rest =>
      finishingSet' ← try_catch
        (oid ← await (GitRefManager_resolve G newFS gitdir_ ref);
         Ok (Set_add oid finishingSet))
        (λ err, Ok finishingSet);
      resolve_finish newFS gitdir_ rest finishingSet'
  end.

(** The default of the destructured parameter (line 42):
    [gitdir = join(dir, '.git')].  It is evaluated when the function is
    entered, before the [try] of line 45, and [join] may throw. *)
Definition gitdir_of (args : Args FsClient) : result string :=
  match gitdir args with
  | Some g => inr g
  | None => join G (dir args) ".git"
  end.

(** Lines 46-58, with [gitdir_] the value line 42 gave [gitdir]: the
    checks and the resolution of the starting set, up to the point where
    the walk begins. *)
Definition prepare (gitdir_ : string) (args : Args FsClient)
    : outcome (FileSystem FsClient * gset string * list string) :=
  _ ← await (assertParameter G "fs" (fs args));
  _ ← await (assertParameter G "gitdir" (Some gitdir_));
  let newFS := new_FileSystem (fs args) in
  start ← await (listBranches G newFS (dir args) gitdir_);
  shallows ← await (GitShallowManager_read G newFS gitdir_);
  startingSet ← resolve_start newFS gitdir_ start [];
  Ok (newFS, shallows, startingSet).

(** The body of the [try] block (lines 46-105) with the constant
    [finish] of line 52 as a parameter; it ends with the state the walk
    has reached. *)
Definition listCommits_try (finish : list string) (fuel : nat)
    (gitdir_ : string) (args : Args FsClient) : outcome WalkState :=
  '(newFS, shallows, startingSet) ← prepare gitdir_ args;
  finishingSet ← resolve_finish newFS gitdir_ finish [];
  walk_startingSet newFS gitdir_ shallows fuel startingSet
    {| visited := ∅; reads := [] |}.

(** [catch (err) { err.caller = 'git.listBranches'; throw err }]. *)
Definition rethrow_with_caller (err : Error) : outcome WalkState :=
  Throw {| kind := kind err; caller := Some "git.listBranches" |}.

(** The whole function with [finish] as a parameter, ending with the
    state of the walk: the parameter default first, outside the [try],
    then the [try] block with its [catch]. *)
Definition listCommits_run (finish : list string) (fuel : nat)
    (args : Args FsClient) : outcome WalkState :=
  gitdir_ ← await (gitdir_of args);
  try_catch (listCommits_try finish fuel gitdir_ args) rethrow_with_caller.

(** [export async function listCommits({ fs, dir, gitdir })], called with
    the argument object [args]: line 52 has [const finish = []], and the
    function returns [visited]. *)
Definition listCommits (fuel : nat) (args : Args FsClient)
    : outcome (gmap string Entry) :=
  st ← listCommits_run [] fuel args;
  Ok (visited st).

(** The call with or without an argument object: destructuring
    [undefined] in the parameter list throws, before the [try] as well. *)
Definition listCommits_called (fuel : nat) (argument : option (Args FsClient))
    : outcome (gmap string Entry) :=
  match argument with
  | Some args => listCommits fuel args
  | None => Throw (new_TypeError "Cannot destructure property 'fs' of 'undefined'")
  end.

End ListCommits.

(** ** Small repositories to run the code on *)

(** A repository given by its branches (name, oid), its shallow file and
    its objects (oid, type, payload); a payload is the list of hashes its
    headers name: the parents of a commit, the target of a tag. *)
Definition lookup_assoc {A : Type} (k : string) (l : list (string * A)) : option A :=
  snd <$> List.find (λ kv, bool_decide (kv.1 = k)) l.

Definition not_found (what : string) : Error :=
  {| kind := CollaboratorError "NotFoundError" what; caller := None |}.

Definition repository (branches : list (string * string)) (shallow : list string)
    (objects : list (string * (string * list string))) : Collaborators unit (list string) :=
  {| join := λ dir name,
       match dir with
       | Some d => inr (d ++ "/" ++ name)
       | None => inl (new_TypeError "Cannot read properties of undefined")
       end;
     assertParameter := λ A name value,
       match value with
       | Some _ => inr tt
       | None => inl {| kind := CollaboratorError "MissingParameterError" name; caller := None |}
       end;
     listBranches := λ _ _ _, inr (fst <$> branches);
     GitShallowManager_read := λ _ _, inr (list_to_set shallow);
     GitRefManager_resolve := λ _ _ ref,
       match lookup_assoc ref branches with
       | Some oid => inr oid
       | None => inl (not_found ref)
       end;
     readObject := λ _ _ oid,
       match lookup_assoc oid objects with
       | Some (ty, payload) => inr (mkGitObject ty payload)
       | None => inl (not_found oid)
       end;
     GitAnnotatedTag_object := λ payload,
       match payload with
       | target :: _ => inr target
       | [] => inl (not_found "object")
       end;
     GitCommit_parent := λ payload, inr payload |}.

Definition args_tutorial : Args unit := mkArgs (Some tt) (Some "/tutorial") None.

(** Linear history [A <- B <- C] with branches at [C] and at its ancestor
    [B], listed in that order. *)
Definition repo_linear : Collaborators unit (list string) :=
  repository [("feature", "C"); ("main", "B")] []
    [("A", ("commit", [])); ("B", ("commit", ["A"])); ("C", ("commit", ["B"]))].

(** One branch that resolves to the annotated tag [T] of the root commit
    [A]. *)
Definition repo_tag : Collaborators unit (list string) :=
  repository [("release", "T")] []
    [("A", ("commit", [])); ("T", ("tag", ["A"]))].

(** One branch that resolves to the annotated tag [T] of the tree [X]. *)
Definition repo_tag_of_tree : Collaborators unit (list string) :=
  repository [("release", "T")] []
    [("X", ("tree", [])); ("T", ("tag", ["X"]))].


(** A merge: [C] and [D] both have parent [B], whose parent is [A]. *)
Definition repo_merge : Collaborators unit (list string) :=
  repository [("c", "C"); ("d", "D")] []
    [("A", ("commit", [])); ("B", ("commit", ["A"]));
     ("C", ("commit", ["B"])); ("D", ("commit", ["B"]))].

(** The map [listCommits] returns on [repo_merge]. *)
Definition visited_merge : gmap string Entry :=
  {[ "A" := {| children := ["B"] |};
     "B" := {| children := ["C"; "D"] |};
     "C" := {| children := [] |};
     "D" := {| children := [] |} ]}.

(** ** The walk as a derivation *)

Section WalkDerivation.
Context {FsClient Payload : Type}.
Variable G : Collaborators FsClient Payload.
Variable newFS : FileSystem FsClient.
Variable gitdir_ : string.
Variable shallows : gset string.

(** One step the walk can take from a hash: to the target of a tag, or to
    a parent of a commit outside the shallow boundary. *)
Definition step (a b : string) : Prop :=
  is_tag G newFS gitdir_ a b ∨ parent_edge G newFS gitdir_ shallows a b.

(** From a key to a key: peel the tags at [k], then take a parent of the
    commit that is found. *)
Definition out_edge (k p : string) : Prop :=
  ∃ tags c, peels G newFS gitdir_ tags k c ∧ parent_edge G newFS gitdir_ shallows c p.

(** The successful calls of [walk], and of its parent loop, as derivations:
    [walks oid st st'] when [walk(oid)] takes the state [st] to [st'];
    [walks_parents oid ps st st'] the same for the loop of [oid] over the
    parents [ps] that are left. *)
Inductive walks : string → WalkState → WalkState → Prop :=
| walks_tag oid target st st' :
    is_tag G newFS gitdir_ oid target →
    walks target (record_read oid st) st' →
    walks oid st st'
| walks_shallow oid o st :
    readObject G newFS gitdir_ oid = inr o → type o = "commit" →
    oid ∈ shallows →
    walks oid st (record_read oid st)
| walks_commit oid parents st st' :
    is_commit G newFS gitdir_ oid parents → oid ∉ shallows →
    walks_parents oid parents (record_read oid st) st' →
    walks oid st st'
with walks_parents : string → list string → WalkState → WalkState → Prop :=
| walks_parents_nil oid st :
    walks_parents oid [] st st
| walks_parents_known oid p rest st st' :
    p ∈ dom (visited st) →
    walks_parents oid rest
      {| visited := add_child p oid (visited st); reads := reads st |} st' →
    walks_parents oid (p :: rest) st st'
| walks_parents_new oid p rest st st1 st' :
    p ∉ dom (visited st) →
    walks p st st1 →
    walks_parents oid rest
      {| visited := add_child p oid (visited st1); reads := reads st1 |} st' →
    walks_parents oid (p :: rest) st st'.

Scheme walks_min := Minimality for walks Sort Prop
  with walks_parents_min := Minimality for walks_parents Sort Prop.
Combined Scheme walks_mutind from walks_min, walks_parents_min.

(** [visited'] has every record of [visited], with the same children and
    possibly more after them. *)
Definition grows (visited visited' : gmap string Entry) : Prop :=
  ∀ k e, visited !! k = Some e →
    ∃ e', visited' !! k = Some e' ∧ children e `prefix_of` children e'.

(** Every commit [k] peels to is listed among the children of each of its
    parents. *)
Definition recorded (visited : gmap string Entry) (k : string) : Prop :=
  ∀ tags c p, peels G newFS gitdir_ tags k c →
    parent_edge G newFS gitdir_ shallows c p →
    ∃ e, visited !! p = Some e ∧ c ∈ children e.

(** Every child listed in [visited] is a commit outside the shallow
    boundary that names the key as a parent. *)
Definition children_sound (visited : gmap string Entry) : Prop :=
  ∀ p e c, visited !! p = Some e → c ∈ children e →
    parent_edge G newFS gitdir_ shallows c p.

(** No starting hash is reached from another one. *)
Definition independent (startingSet : list string) : Prop :=
  ∀ s s', s ∈ startingSet → s' ∈ startingSet → s ≠ s' → ¬ rtc out_edge s s'.

(** The trace has no repeated read, and every list of children is without
    repetition and holds only hashes that were read. *)
Definition tidy (st : WalkState) : Prop :=
  NoDup (reads st) ∧
  ∀ p e, visited st !! p = Some e →
    NoDup (children e) ∧ ∀ c, c ∈ children e → c ∈ reads st.

(** The error [e] is what the expansion of [x] throws by itself: what a
    collaborator threw on reading or decoding [x], or the
    [ObjectTypeError] of line 80 for [x]. *)
Definition raised_at (x : string) (e : Error) : Prop :=
  readObject G newFS gitdir_ x = inl e ∨
  ∃ o, readObject G newFS gitdir_ x = inr o ∧
    ((type o = "tag" ∧ GitAnnotatedTag_object G (object o) = inl e) ∨
     (type o ≠ "tag" ∧ type o ≠ "commit" ∧
      e = new_ObjectTypeError x (type o) "commit") ∨
     (type o = "commit" ∧ (x ∉ shallows) ∧ GitCommit_parent G (object o) = inl e)).

(** [calls fuel oid st fuel' h st']: the call [walk(oid)], entered in the
    state [st] with the depth [fuel] left, makes the call [walk(h)] in the
    state [st'] with the depth [fuel'] left: it is that call, or it is made,
    directly or through further calls, for the target of the tag at [oid]
    (line 77) or for a parent of the commit at [oid] that is not a key yet,
    after the loop has gone through the parents before it (line 88). *)
Inductive calls : nat → string → WalkState → nat → string → WalkState → Prop :=
| calls_self fuel oid st :
    calls fuel oid st fuel oid st
| calls_target fuel oid st target fuel' h st' :
    is_tag G newFS gitdir_ oid target →
    calls fuel target (record_read oid st) fuel' h st' →
    calls (S fuel) oid st fuel' h st'
| calls_parent fuel oid st parents before p after st1 fuel' h st' :
    is_commit G newFS gitdir_ oid parents → oid ∉ shallows →
    parents = (before ++ p :: after)%list →
    walk_parents (walk G newFS gitdir_ shallows fuel) oid before (record_read oid st)
      = Ok st1 →
    p ∉ dom (visited st1) →
    calls fuel p st1 fuel' h st' →
    calls (S fuel) oid st fuel' h st'.

(** The start loop over [startingSet] makes the call [walk(h)] in the
    state [st'] with the depth [fuel'] left: the starting hashes before
    some [s] were walked, [s] was bound, and the call of [s] makes it. *)
Definition run_calls (fuel : nat) (startingSet : list string)
    (fuel' : nat) (h : string) (st' : WalkState) : Prop :=
  ∃ before s after st1,
    startingSet = (before ++ s :: after)%list ∧
    walk_startingSet G newFS gitdir_ shallows fuel before
      {| visited := ∅; reads := [] |} = Ok st1 ∧
    calls fuel s {| visited := set_empty_entry s (visited st1); reads := reads st1 |}
      fuel' h st'.

(** The object at [oid] is one the walk accepts: a tag that decodes, or
    an object of type [commit]. *)
Definition accepted (oid : string) : Prop :=
  (∃ target, is_tag G newFS gitdir_ oid target) ∨
  (∃ o, readObject G newFS gitdir_ oid = inr o ∧ type o = "commit").
End WalkDerivation.

(** ** Two stores *)

(** The stores behind [G1] and [G2] answer alike on the hashes [touched]:
    the same object is read, and it decodes to the same tag target and to
    the same parents.  Elsewhere they may differ. *)
Definition same_store {FsClient Payload : Type}
    (G1 G2 : Collaborators FsClient Payload) (newFS : FileSystem FsClient)
    (gitdir_ : string) (touched : list string) : Prop :=
  ∀ oid, oid ∈ touched →
    readObject G1 newFS gitdir_ oid = readObject G2 newFS gitdir_ oid ∧
    ∀ o, readObject G1 newFS gitdir_ oid = inr o →
      GitAnnotatedTag_object G1 (object o) = GitAnnotatedTag_object G2 (object o) ∧
      GitCommit_parent G1 (object o) = GitCommit_parent G2 (object o).

(** [repo_merge] after the store has grown: one more object, the blob
    [Z], that no commit names. *)
Definition repo_merge_later : Collaborators unit (list string) :=
  repository [("c", "C"); ("d", "D")] []
    [("A", ("commit", [])); ("B", ("commit", ["A"]));
     ("C", ("commit", ["B"])); ("D", ("commit", ["B"])); ("Z", ("blob", []))].

(** One branch at the commit [C], whose parent list names the tree [X]. *)
Definition repo_tree_parent : Collaborators unit (list string) :=
  repository [("main", "C")] []
    [("X", ("tree", [])); ("C", ("commit", ["X"]))].

(** An argument object with [fs] alone: neither [dir] nor [gitdir]. *)
Definition args_fs_only : Args unit := mkArgs (Some tt) None None.

(** [repo_merge] with one more branch listed, [gone], that does not
    resolve. *)
Definition repo_dangling : Collaborators unit (list string) :=
  {| join := join repo_merge;
     assertParameter := @assertParameter _ _ repo_merge;
     listBranches := λ _ _ _, inr ["c"; "gone"; "d"];
     GitShallowManager_read := GitShallowManager_read repo_merge;
     GitRefManager_resolve := GitRefManager_resolve repo_merge;
     readObject := readObject repo_merge;
     GitAnnotatedTag_object := GitAnnotatedTag_object repo_merge;
     GitCommit_parent := GitCommit_parent repo_merge |}.

(** A rank for the hashes of [repo_merge], [repo_linear] and
    [repo_shallow]: every commit ranks above its parents. *)
Definition rank_small (oid : string) : nat :=
  if decide (oid = "A") then 0
  else if decide (oid = "B") then 1
  else if decide (oid = "P") then 1
  else 2.

Set Warnings "-clear-no-such-hyp".

(** * Facts about the operations on [visited] *)

Lemma hasOwnProperty_dom (v : gmap string Entry) k :
  hasOwnProperty v k = true ↔ k ∈ dom v.
Proof.
  unfold hasOwnProperty. rewrite bool_decide_eq_true. symmetry. apply elem_of_dom.
Qed.

Lemma hasOwnProperty_not_dom (v : gmap string Entry) k :
  hasOwnProperty v k = false ↔ k ∉ dom v.
Proof.
  rewrite <- hasOwnProperty_dom. destruct (hasOwnProperty v k); naive_solver.
Qed.

Lemma ensure_then_push k oid (v : gmap string Entry) :
  children_push k oid
    (if negb (in_object k v) then set_empty_entry k v else v)
  = Ok (add_child k oid v).
Proof.
  unfold in_object, children_push, add_child, set_empty_entry.
  destruct (v !! k) as [e|] eqn:Hk.
  - rewrite bool_decide_eq_true_2 by eauto. simpl. by rewrite Hk.
  - rewrite bool_decide_eq_false_2 by (intros [? ?]; congruence). simpl.
    rewrite lookup_insert_eq. simpl. by rewrite insert_insert_eq.
Qed.

Lemma dom_add_child k oid (v : gmap string Entry) :
  dom (add_child k oid v) = {[k]} ∪ dom v.
Proof. unfold add_child. by rewrite dom_insert_L. Qed.

Lemma dom_set_empty_entry k (v : gmap string Entry) :
  dom (set_empty_entry k v) = {[k]} ∪ dom v.
Proof. unfold set_empty_entry. by rewrite dom_insert_L. Qed.

Section WalkFacts.
Context {FsClient Payload : Type}.
Variable G : Collaborators FsClient Payload.
Variable newFS : FileSystem FsClient.
Variable gitdir_ : string.
Variable shallows : gset string.

Local Abbreviation walk := (walk G newFS gitdir_ shallows).
Local Abbreviation walk_startingSet := (walk_startingSet G newFS gitdir_ shallows).
Local Abbreviation is_commit := (is_commit G newFS gitdir_).
Local Abbreviation is_tag := (is_tag G newFS gitdir_).
Local Abbreviation parent_edge := (parent_edge G newFS gitdir_ shallows).
Local Abbreviation peels := (peels G newFS gitdir_).
Local Abbreviation closed := (closed G newFS gitdir_ shallows).

(** One turn of the parent loop, with lines 93-96 folded into [add_child]. *)
Lemma walk_parents_cons w oid p rest st :
  walk_parents w oid (p :: rest) st =
  st1 ← (if negb (hasOwnProperty (visited st) p) then w p st else Ok st);
  walk_parents w oid rest
    {| visited := add_child p oid (visited st1); reads := reads st1 |}.
Proof.
  simpl. destruct (if negb _ then _ else _) as [st1| |]; simpl; try done.
  by rewrite ensure_then_push.
Qed.

Lemma walk_S fuel oid st :
  walk (S fuel) oid st =
  o ← await (readObject G newFS gitdir_ oid);
  if bool_decide (type o = "tag") then
    commit ← await (GitAnnotatedTag_object G (object o));
    walk fuel commit (record_read oid st)
  else if bool_decide (type o ≠ "commit") then
    Throw (new_ObjectTypeError oid (type o) "commit")
  else if negb (bool_decide (oid ∈ shallows)) then
    parents ← await (GitCommit_parent G (object o));
    walk_parents (walk fuel) oid parents (record_read oid st)
  else Ok (record_read oid st).
Proof. reflexivity. Qed.

(** On a tag the call is the call on its target. *)
Lemma walk_S_tag fuel oid target st :
  is_tag oid target → walk (S fuel) oid st = walk fuel target (record_read oid st).
Proof.
  intros (o & Hr & Ht & Hd). rewrite walk_S, Hr. simpl.
  rewrite bool_decide_eq_true_2 by done. by rewrite Hd.
Qed.

Lemma is_commit_functional oid ps1 ps2 :
  is_commit oid ps1 → is_commit oid ps2 → ps1 = ps2.
Proof. intros (o1 & H1 & _ & D1) (o2 & H2 & _ & D2). congruence. Qed.

Lemma shallow_no_edge oid x : oid ∈ shallows → parent_edge oid x → False.
Proof. intros Hs (ps & _ & Hn & _). done. Qed.

(** ** The keys of [visited] across a call *)

(** The parent loop, for any recursive call [w] that keeps the keys it
    finds, leaves the parents of the hash it walked among the keys, and
    adds only keys that are closed and listed as a parent. *)
Lemma walk_parents_keys (w : string → WalkState → outcome WalkState) :
  (∀ oid st st', w oid st = Ok st' →
     dom (visited st) ⊆ dom (visited st') ∧
     (∀ x, parent_edge oid x → x ∈ dom (visited st')) ∧
     (∀ k, k ∈ dom (visited st') → k ∉ dom (visited st) →
        (∀ x, parent_edge k x → x ∈ dom (visited st')) ∧ ∃ c, parent_edge c k)) →
  ∀ oid ps st st', walk_parents w oid ps st = Ok st' →
     dom (visited st) ⊆ dom (visited st') ∧
     (∀ p, p ∈ ps → p ∈ dom (visited st')) ∧
     (∀ k, k ∈ dom (visited st') → k ∉ dom (visited st) →
        (∀ x, parent_edge k x → x ∈ dom (visited st')) ∧
        (k ∈ ps ∨ ∃ c, parent_edge c k)).
Proof.
  intros Hw oid ps. induction ps as [|p rest IH]; intros st st'.
  - intros [= <-]. split; [done|]. split; [by intros ? ?%elem_of_nil|]. naive_solver.
  - rewrite walk_parents_cons.
    destruct (hasOwnProperty (visited st) p) eqn:Hp; simpl.
    + apply hasOwnProperty_dom in Hp. intros Hrest.
      apply IH in Hrest as (Hsub & Hps & Hnew); simpl in *.
      rewrite dom_add_child in Hsub, Hnew.
      split; [set_solver|]. split.
      * intros q [->|Hq]%elem_of_cons; [set_solver|auto].
      * intros k Hk Hnk. destruct (Hnew k Hk) as [Hc Hor]; [set_solver|].
        split; [done|]. rewrite elem_of_cons. naive_solver.
    + apply hasOwnProperty_not_dom in Hp.
      destruct (w p st) as [st1| |] eqn:Hwp; simpl; try done.
      intros Hrest. apply Hw in Hwp as (Hsub1 & Hedge1 & Hnew1).
      apply IH in Hrest as (Hsub & Hps & Hnew); simpl in *.
      rewrite dom_add_child in Hsub, Hnew.
      split; [set_solver|]. split.
      * intros q [->|Hq]%elem_of_cons; [set_solver|auto].
      * intros k Hk Hnk.
        destruct (decide (k = p)) as [->|Hkp].
        { split; [|left; by left]. intros x Hx. apply Hsub. set_solver. }
        destruct (decide (k ∈ dom (visited st1))) as [Hk1|Hk1].
        { destruct (Hnew1 k Hk1 Hnk) as [Hc Hor]. split; [|by right].
          intros x Hx. apply Hsub. set_solver. }
        destruct (Hnew k Hk) as [Hc Hor]; [set_solver|].
        split; [done|]. rewrite elem_of_cons. naive_solver.
Qed.

(** [walk] never drops a key, leaves the parents of a commit it expands
    among the keys, and adds only keys that are closed and that some commit
    outside the shallow boundary lists as a parent. *)
Lemma walk_keys fuel : ∀ oid st st',
  walk fuel oid st = Ok st' →
  dom (visited st) ⊆ dom (visited st') ∧
  (∀ x, parent_edge oid x → x ∈ dom (visited st')) ∧
  (∀ k, k ∈ dom (visited st') → k ∉ dom (visited st) →
     (∀ x, parent_edge k x → x ∈ dom (visited st')) ∧ ∃ c, parent_edge c k).
Proof.
  induction fuel as [|fuel IH]; intros oid st st'; [done|].
  rewrite walk_S.
  destruct (readObject G newFS gitdir_ oid) as [e|o] eqn:Hr; [done|].
  simpl. case_bool_decide as Ht.
  - destruct (GitAnnotatedTag_object G (object o)) as [e|target] eqn:Hd; [done|].
    simpl. intros Hw. apply IH in Hw as (Hsub & _ & Hnew). simpl in *.
    split; [done|]. split; [|done].
    intros x (ps & (o' & Hr' & Ht' & _) & _). congruence.
  - case_bool_decide as Hc; [done|].
    destruct (decide (oid ∈ shallows)) as [Hs|Hs].
    + rewrite bool_decide_eq_true_2 by done. simpl. intros [= <-]. simpl.
      split; [done|]. split; [|done].
      intros x Hx. by destruct (shallow_no_edge _ _ Hs Hx).
    + rewrite bool_decide_eq_false_2 by done. simpl.
      destruct (GitCommit_parent G (object o)) as [e|ps] eqn:Hd; [done|].
      simpl. intros Hw.
      assert (is_commit oid ps) as Hcommit by (by exists o).
      apply (walk_parents_keys _ IH) in Hw as (Hsub & Hps & Hnew). simpl in *.
      split; [done|]. split.
      * intros x (ps' & Hc' & _ & Hx).
        rewrite (is_commit_functional _ _ _ Hc' Hcommit) in Hx. auto.
      * intros k Hk Hnk. destruct (Hnew k Hk Hnk) as [Hcl [Hin|Hex]].
        -- split; [done|]. exists oid, ps. done.
        -- done.
Qed.

(** The start loop keeps [visited] closed, puts every starting hash among
    the keys, and adds only starting hashes and listed parents. *)
Lemma walk_startingSet_keys fuel : ∀ startingSet st st',
  walk_startingSet fuel startingSet st = Ok st' →
  closed (visited st) →
  dom (visited st) ⊆ dom (visited st') ∧
  (∀ s, s ∈ startingSet → s ∈ dom (visited st')) ∧
  closed (visited st') ∧
  (∀ k, k ∈ dom (visited st') → k ∉ dom (visited st) →
     k ∈ startingSet ∨ ∃ c, parent_edge c k).
Proof.
  induction startingSet as [|oid rest IH]; intros st st'.
  - intros [= <-] Hcl. split; [done|]. split; [by intros ? ?%elem_of_nil|]. naive_solver.
  - simpl.
    destruct (walk fuel oid _) as [st1| |] eqn:Hw; simpl; try done.
    intros Hrest Hcl.
    apply walk_keys in Hw as (Hsub1 & Hedge1 & Hnew1). simpl in *.
    rewrite dom_set_empty_entry in Hsub1, Hnew1.
    assert (closed (visited st1)) as Hcl1.
    { intros k x Hk Hx.
      destruct (decide (k = oid)) as [->|Hne]; [auto|].
      destruct (decide (k ∈ dom (visited st))) as [Hin|Hin].
      - apply Hsub1. apply elem_of_union_r. by apply (Hcl k x).
      - apply (Hnew1 k Hk); [set_solver|done]. }
    destruct (IH _ _ Hrest Hcl1) as (Hsub & Hstart & Hcl' & Hnew).
    split; [set_solver|]. split; [|split; [done|]].
    + intros s [->|Hs]%elem_of_cons; [set_solver|auto].
    + intros k Hk Hnk. rewrite elem_of_cons.
      destruct (decide (k = oid)) as [->|Hne]; [by left; left|].
      destruct (decide (k ∈ dom (visited st1))) as [Hin|Hin].
      * right. apply (Hnew1 k Hin). set_solver.
      * destruct (Hnew k Hk Hin); naive_solver.
Qed.

(** ** The records across a call *)

Lemma add_child_grows k oid (v : gmap string Entry) k' e :
  v !! k' = Some e →
  ∃ e', add_child k oid v !! k' = Some e' ∧ children e `prefix_of` children e'.
Proof.
  intros Hk'. unfold add_child. destruct (decide (k = k')) as [->|Hne].
  - rewrite lookup_insert_eq, Hk'. eexists. split; [done|]. simpl.
    by apply prefix_app_r.
  - rewrite lookup_insert_ne by done. by exists e.
Qed.

(** Inside [walk] the map only grows: a record that is there stays, and
    its [children] are only appended to.  (The assignment of line 102 in
    the start loop is the one place that does otherwise.) *)
Lemma walk_parents_children_grow (w : string → WalkState → outcome WalkState) :
  (∀ oid st st', w oid st = Ok st' →
     ∀ k e, visited st !! k = Some e →
       ∃ e', visited st' !! k = Some e' ∧ children e `prefix_of` children e') →
  ∀ oid ps st st', walk_parents w oid ps st = Ok st' →
     ∀ k e, visited st !! k = Some e →
       ∃ e', visited st' !! k = Some e' ∧ children e `prefix_of` children e'.
Proof.
  intros Hw oid ps. induction ps as [|p rest IH]; intros st st'.
  - intros [= <-] k e Hk. by exists e.
  - rewrite walk_parents_cons. intros Hrun k e Hk.
    assert (∃ st1, (if negb (hasOwnProperty (visited st) p) then w p st else Ok st)
                   = Ok st1 ∧
                   walk_parents w oid rest
                     {| visited := add_child p oid (visited st1); reads := reads st1 |}
                   = Ok st') as (st1 & Hst1 & Hrest).
    { destruct (if negb _ then _ else _) as [st1| |]; simpl in Hrun; try done.
      by exists st1. }
    assert (∃ e1, visited st1 !! k = Some e1 ∧ children e `prefix_of` children e1)
      as (e1 & Hk1 & Hpre1).
    { destruct (negb _); [by eapply Hw|]. injection Hst1 as <-. by exists e. }
    destruct (add_child_grows p oid _ _ _ Hk1) as (e2 & Hk2 & Hpre2).
    destruct (IH _ _ Hrest k e2 Hk2) as (e' & Hk' & Hpre').
    exists e'. split; [done|]. by repeat (etrans; [eassumption|]).
Qed.

Lemma walk_children_grow fuel : ∀ oid st st',
  walk fuel oid st = Ok st' →
  ∀ k e, visited st !! k = Some e →
    ∃ e', visited st' !! k = Some e' ∧ children e `prefix_of` children e'.
Proof.
  induction fuel as [|fuel IH]; intros oid st st'; [done|].
  rewrite walk_S.
  destruct (await (readObject G newFS gitdir_ oid)) as [o|e|]; simpl; try done.
  repeat case_match; try done.
  - destruct (await (GitAnnotatedTag_object G (object o))); simpl; try done.
    intros Hw. by apply (IH _ _ _ Hw).
  - destruct (await (GitCommit_parent G (object o))); simpl; try done.
    intros Hw. by apply (walk_parents_children_grow _ IH _ _ _ _ Hw).
  - intros [= <-] k e Hk. by exists e.
Qed.

(** ** More fuel changes nothing *)

Lemma walk_parents_fuel (w1 w2 : string → WalkState → outcome WalkState) :
  (∀ p st r, w1 p st = r → r ≠ OutOfFuel → w2 p st = r) →
  ∀ oid ps st r, walk_parents w1 oid ps st = r → r ≠ OutOfFuel →
    walk_parents w2 oid ps st = r.
Proof.
  intros Hw oid ps. induction ps as [|p rest IH]; intros st r; [done|].
  rewrite !walk_parents_cons.
  destruct (negb (hasOwnProperty (visited st) p)); simpl; [|by apply IH].
  destruct (w1 p st) as [st1|e|] eqn:H1; simpl.
  - rewrite (Hw _ _ _ H1) by done. simpl. by apply IH.
  - rewrite (Hw _ _ _ H1) by done. done.
  - by intros <-.
Qed.

Lemma walk_fuel_S fuel : ∀ oid st r,
  walk fuel oid st = r → r ≠ OutOfFuel → walk (S fuel) oid st = r.
Proof.
  induction fuel as [|fuel IH]; intros oid st r; [by intros <-|].
  rewrite (walk_S (S fuel)), (walk_S fuel).
  destruct (await (readObject G newFS gitdir_ oid)) as [o|e|]; simpl; try done.
  repeat case_match; try done.
  - destruct (await (GitAnnotatedTag_object G (object o))); simpl; try done.
    apply IH.
  - destruct (await (GitCommit_parent G (object o))); simpl; try done.
    by apply walk_parents_fuel.
Qed.

Lemma walk_fuel_le (fuel fuel' : nat) oid st r :
  (fuel ≤ fuel')%nat → walk fuel oid st = r → r ≠ OutOfFuel → walk fuel' oid st = r.
Proof.
  induction 1 as [|fuel' _ IH]; [done|]. intros Hw Hr. apply walk_fuel_S; auto.
Qed.

Lemma walk_startingSet_fuel_le (fuel fuel' : nat) : (fuel ≤ fuel')%nat →
  ∀ startingSet st r, walk_startingSet fuel startingSet st = r → r ≠ OutOfFuel →
    walk_startingSet fuel' startingSet st = r.
Proof.
  intros Hle. induction startingSet as [|oid rest IH]; intros st r; [done|].
  simpl. destruct (walk fuel oid _) as [st1|e|] eqn:Hw; simpl.
  - rewrite (walk_fuel_le _ _ _ _ _ Hle Hw) by done. simpl. apply IH.
  - rewrite (walk_fuel_le _ _ _ _ _ Hle Hw) by done. done.
  - by intros <-.
Qed.

(** ** The walk returns on a store without cycles *)

Lemma walk_parents_returns (w : string → WalkState → outcome WalkState) oid ps :
  (∀ p st, p ∈ ps → w p st ≠ OutOfFuel) →
  ∀ st, walk_parents w oid ps st ≠ OutOfFuel.
Proof.
  induction ps as [|p rest IH]; intros Hw st; [done|].
  rewrite walk_parents_cons.
  assert (∀ st', walk_parents w oid rest st' ≠ OutOfFuel) as Hrest.
  { apply IH. intros q st' Hq. apply Hw. by right. }
  destruct (negb (hasOwnProperty (visited st) p)); simpl; [|apply Hrest].
  destruct (w p st) as [st1|e|] eqn:Hp; simpl; [apply Hrest|done|].
  by destruct (Hw p st (list_elem_of_here _ _)).
Qed.

(** If every tag and every commit outside the shallow boundary ranks above
    what it names, a walk that is given more depth than the rank of its
    hash returns or throws. *)
Lemma walk_returns (rank : string → nat) :
  (∀ oid target, is_tag oid target → (rank target < rank oid)%nat) →
  (∀ child parent, parent_edge child parent → (rank parent < rank child)%nat) →
  ∀ fuel oid st, (rank oid < fuel)%nat → walk fuel oid st ≠ OutOfFuel.
Proof.
  intros Htag Hedge. induction fuel as [|fuel IH]; intros oid st Hlt; [lia|].
  rewrite walk_S.
  destruct (readObject G newFS gitdir_ oid) as [e|o] eqn:Hr; [done|].
  simpl. case_bool_decide as Ht.
  - destruct (GitAnnotatedTag_object G (object o)) as [e|target] eqn:Hd; [done|].
    simpl. apply IH.
    assert (is_tag oid target) as Hlt'%Htag by (by exists o). lia.
  - case_bool_decide as Hc; [done|].
    destruct (decide (oid ∈ shallows)) as [Hs|Hs].
    + by rewrite bool_decide_eq_true_2.
    + rewrite bool_decide_eq_false_2 by done. simpl.
      destruct (GitCommit_parent G (object o)) as [e|ps] eqn:Hd; [done|].
      simpl. apply walk_parents_returns. intros p st' Hp. apply IH.
      assert (parent_edge oid p) as Hlt'%Hedge; [|lia].
      exists ps. split; [by exists o|done].
Qed.

(** ** Tags are peeled *)

Lemma walk_peels tags oid target :
  peels tags oid target →
  ∀ fuel st, walk (length tags + fuel) oid st =
             walk fuel target {| visited := visited st; reads := reads st ++ tags |}.
Proof.
  induction 1 as [oid|oid next tags target Htag _ IH]; intros fuel st.
  - simpl. rewrite app_nil_r. by destruct st.
  - simpl length. rewrite Nat.add_succ_l, (walk_S_tag _ _ _ _ Htag), IH.
    unfold record_read. simpl. by rewrite <- app_assoc.
Qed.

Lemma walk_not_commit fuel oid o st :
  readObject G newFS gitdir_ oid = inr o → type o ≠ "tag" → type o ≠ "commit" →
  walk (S fuel) oid st = Throw (new_ObjectTypeError oid (type o) "commit").
Proof.
  intros Hr Ht Hc. rewrite walk_S, Hr. simpl.
  rewrite bool_decide_eq_false_2 by done. by rewrite bool_decide_eq_true_2.
Qed.

(** A throw in the walk of one starting hash ends the start loop. *)
Lemma walk_startingSet_app fuel pre rest st :
  walk_startingSet fuel (pre ++ rest) st =
  st1 ← walk_startingSet fuel pre st; walk_startingSet fuel rest st1.
Proof.
  revert st. induction pre as [|oid pre IH]; intros st; [done|].
  simpl. destruct (walk fuel oid _); simpl; auto.
Qed.

End WalkFacts.

Section ListCommitsFacts.
Context {FsClient Payload : Type}.
Variable G : Collaborators FsClient Payload.

Lemma resolve_finish_never_throws newFS gitdir_ finish : ∀ finishingSet,
  ∃ finishingSet', resolve_finish G newFS gitdir_ finish finishingSet = Ok finishingSet'.
Proof.
  induction finish as [|ref rest IH]; intros set; [by eexists|].
  simpl. destruct (GitRefManager_resolve G newFS gitdir_ ref); simpl; apply IH.
Qed.

(** Once the starting set is resolved, the [try] block is the start loop
    on the empty [visited], whatever [finish] holds. *)
Lemma listCommits_try_prepared finish fuel gitdir_ args newFS shallows startingSet :
  prepare G gitdir_ args = Ok (newFS, shallows, startingSet) →
  listCommits_try G finish fuel gitdir_ args =
  walk_startingSet G newFS gitdir_ shallows fuel startingSet
    {| visited := ∅; reads := [] |}.
Proof.
  intros Hp. unfold listCommits_try. rewrite Hp. simpl.
  destruct (resolve_finish_never_throws newFS gitdir_ finish []) as [fs' ->].
  done.
Qed.

Lemma listCommits_try_not_prepared finish fuel gitdir_ args :
  (∀ x, prepare G gitdir_ args ≠ Ok x) →
  listCommits_try G finish fuel gitdir_ args = listCommits_try G [] fuel gitdir_ args.
Proof.
  intros Hp. unfold listCommits_try.
  destruct (prepare G gitdir_ args) as [x|e|]; simpl; try done. by destruct (Hp x).
Qed.

Lemma listCommits_Ok_inv fuel args v :
  listCommits G fuel args = Ok v →
  ∃ gitdir_ newFS shallows startingSet st,
    gitdir_of G args = inr gitdir_ ∧
    prepare G gitdir_ args = Ok (newFS, shallows, startingSet) ∧
    walk_startingSet G newFS gitdir_ shallows fuel startingSet
      {| visited := ∅; reads := [] |} = Ok st ∧
    v = visited st.
Proof.
  unfold listCommits, listCommits_run. intros H.
  destruct (gitdir_of G args) as [e|gitdir_] eqn:Hgd; [done|]. simpl in H.
  destruct (prepare G gitdir_ args) as [[[newFS shallows] startingSet]|e|] eqn:Hp.
  - rewrite (listCommits_try_prepared _ _ _ _ _ _ _ Hp) in H.
    destruct (walk_startingSet _ _ _ _ _ _ _) as [st|e|] eqn:Hw; simpl in H; try done.
    injection H as <-. by exists gitdir_, newFS, shallows, startingSet, st.
  - unfold listCommits_try in H. rewrite Hp in H. done.
  - unfold listCommits_try in H. rewrite Hp in H. done.
Qed.

Lemma listCommits_prepared fuel gitdir_ args newFS shallows startingSet :
  gitdir_of G args = inr gitdir_ →
  prepare G gitdir_ args = Ok (newFS, shallows, startingSet) →
  listCommits G fuel args =
  st ← try_catch
         (walk_startingSet G newFS gitdir_ shallows fuel startingSet
            {| visited := ∅; reads := [] |})
         rethrow_with_caller;
  Ok (visited st).
Proof.
  intros Hgd Hp. unfold listCommits, listCommits_run. rewrite Hgd. simpl.
  by rewrite (listCommits_try_prepared _ _ _ _ _ _ _ Hp).
Qed.

(** What a successful run went through, once its [gitdir] and its
    starting set are known: the start loop on the empty state. *)
Lemma listCommits_Ok_start_loop fuel gitdir_ args newFS shallows startingSet v :
  gitdir_of G args = inr gitdir_ →
  prepare G gitdir_ args = Ok (newFS, shallows, startingSet) →
  listCommits G fuel args = Ok v →
  ∃ st, walk_startingSet G newFS gitdir_ shallows fuel startingSet
          {| visited := ∅; reads := [] |} = Ok st ∧ v = visited st.
Proof.
  intros Hgd Hp (? & ? & ? & ? & st & Hgd' & Hp' & Hw & ->)%listCommits_Ok_inv.
  rewrite Hgd in Hgd'. injection Hgd' as <-.
  rewrite Hp in Hp'. injection Hp' as <- <- <-. by exists st.
Qed.

Lemma closed_empty newFS gitdir_ shallows : closed G newFS gitdir_ shallows ∅.
Proof. intros k x Hk. set_solver. Qed.

Lemma walk_startingSet_returns newFS gitdir_ shallows (rank : string → nat) fuel :
  (∀ oid target, is_tag G newFS gitdir_ oid target → (rank target < rank oid)%nat) →
  (∀ child parent, parent_edge G newFS gitdir_ shallows child parent →
     (rank parent < rank child)%nat) →
  ∀ startingSet st, (∀ s, s ∈ startingSet → (rank s < fuel)%nat) →
    walk_startingSet G newFS gitdir_ shallows fuel startingSet st ≠ OutOfFuel.
Proof.
  intros Htag Hedge. induction startingSet as [|oid rest IH]; intros st Hr; [done|].
  simpl. destruct (walk _ _ _ _ _ _ _) as [st1|e|] eqn:Hw; simpl; [|done|].
  - apply IH. intros s Hs. apply Hr. by right.
  - apply (walk_returns G newFS gitdir_ shallows rank Htag Hedge) in Hw; [done|].
    apply Hr. by left.
Qed.

(** On a store without cycles [listCommits] returns or throws as soon as
    it is given more depth than the rank of its starting hashes. *)
Lemma listCommits_returns gitdir_ (rank : string → nat) fuel args newFS shallows startingSet :
  gitdir_of G args = inr gitdir_ →
  prepare G gitdir_ args = Ok (newFS, shallows, startingSet) →
  (∀ oid target, is_tag G newFS gitdir_ oid target →
     (rank target < rank oid)%nat) →
  (∀ child parent, parent_edge G newFS gitdir_ shallows child parent →
     (rank parent < rank child)%nat) →
  (∀ s, s ∈ startingSet → (rank s < fuel)%nat) →
  listCommits G fuel args ≠ OutOfFuel.
Proof.
  intros Hgd Hp Htag Hedge Hr. rewrite (listCommits_prepared _ _ _ _ _ _ Hgd Hp).
  pose proof (walk_startingSet_returns _ _ _ rank fuel Htag Hedge startingSet
                {| visited := ∅; reads := [] |} Hr) as Hw.
  by destruct (walk_startingSet _ _ _ _ _ _ _).
Qed.

(** ** The properties of [listCommits] *)

(** C1 (amended).  When a starting hash [T] holds an annotated tag that
    peels, through the tags [tags], to [A]: [T] itself is a key of the
    returned map; walking [T] is walking [A] (after the reads of the tags),
    so what is below [A] is recorded as if [A] had been walked; and [A] is
    a key of the result only if it is a starting hash itself or a parent
    listed by a commit outside the shallow boundary. *)
Theorem tag_start_is_key_and_walks_as_target gitdir_
    args fuel newFS shallows startingSet v T next tags A :
  gitdir_of G args = inr gitdir_ →
  prepare G gitdir_ args = Ok (newFS, shallows, startingSet) →
  listCommits G fuel args = Ok v →
  T ∈ startingSet →
  is_tag G newFS gitdir_ T next →
  peels G newFS gitdir_ tags next A →
  T ∈ dom v ∧
  (∀ n st,
     walk G newFS gitdir_ shallows (S (length tags) + n) T st =
     walk G newFS gitdir_ shallows n A
       {| visited := visited st; reads := reads st ++ T :: tags |}) ∧
  (A ∈ dom v →
   A ∈ startingSet ∨ ∃ c, parent_edge G newFS gitdir_ shallows c A).
Proof.
  intros Hgd Hp Hl HT Htag Hpeel.
  destruct (listCommits_Ok_start_loop _ _ _ _ _ _ _ Hgd Hp Hl) as (st & Hw & ->).
  apply walk_startingSet_keys in Hw as (_ & Hstart & _ & Hnew);
    [|apply closed_empty].
  split; [auto|]. split.
  - intros n st0.
    apply (walk_peels G newFS gitdir_ shallows (T :: tags) T A).
    by eapply peels_tag.
  - intros HA. apply (Hnew A HA). simpl. set_solver.
Qed.


(** C6.  Reachability completeness: every hash reachable from a starting
    hash along parent edges that do not leave a commit of the shallow
    boundary is a key of the map a successful walk returns. *)
Theorem reachability_completeness gitdir_ args fuel newFS shallows startingSet v s c :
  gitdir_of G args = inr gitdir_ →
  prepare G gitdir_ args = Ok (newFS, shallows, startingSet) →
  listCommits G fuel args = Ok v →
  s ∈ startingSet →
  rtc (parent_edge G newFS gitdir_ shallows) s c →
  c ∈ dom v.
Proof.
  intros Hgd Hp Hl Hs Hreach.
  destruct (listCommits_Ok_start_loop _ _ _ _ _ _ _ Hgd Hp Hl) as (st & Hw & ->).
  apply walk_startingSet_keys in Hw as (_ & Hstart & Hcl & _); [|apply closed_empty].
  specialize (Hstart s Hs). clear Hs Hp.
  induction Hreach as [|x y z Hxy _ IH]; [done|].
  apply IH. by apply (Hcl x y).
Qed.

(** C9.  The finishing set is inert: resolving it never throws, whatever
    the references in [finish] resolve to or fail with, and the run, its
    reads and the map it returns are those of the run with no finishing
    reference at all. *)
Theorem finishing_set_is_inert finish fuel args :
  (∀ newFS gitdir_ finishingSet,
     ∃ finishingSet', resolve_finish G newFS gitdir_ finish finishingSet = Ok finishingSet') ∧
  listCommits_run G finish fuel args = listCommits_run G [] fuel args ∧
  (st ← listCommits_run G finish fuel args; Ok (visited st)) = listCommits G fuel args.
Proof.
  assert (listCommits_run G finish fuel args = listCommits_run G [] fuel args) as Hrun.
  { unfold listCommits_run.
    destruct (gitdir_of G args) as [e|gitdir_]; [done|]. simpl.
    destruct (prepare G gitdir_ args) as [[[newFS shallows] startingSet]|e|] eqn:Hp.
    - by rewrite !(listCommits_try_prepared _ _ _ _ _ _ _ Hp).
    - rewrite listCommits_try_not_prepared; [done|]. intros x. by rewrite Hp.
    - rewrite listCommits_try_not_prepared; [done|]. intros x. by rewrite Hp. }
  split; [|split; [done|]].
  - intros newFS gitdir_ set. apply resolve_finish_never_throws.
  - unfold listCommits. by rewrite Hrun.
Qed.

(** C10 (amended).  Once the parameter list is evaluated, that is once
    line 42 has given [gitdir] its value, whatever [listCommits] throws
    comes out of the [try] block and carries the [caller] property
    ['git.listBranches']: a parameter that [assertParameter] reports
    missing, a failure to list the branches or to read the shallow file, a
    starting reference that does not resolve, a read error, an object of
    the wrong type. *)
Theorem thrown_error_carries_caller fuel gitdir_ args e :
  gitdir_of G args = inr gitdir_ →
  listCommits G fuel args = Throw e → caller e = Some "git.listBranches".
Proof.
  intros Hgd. unfold listCommits, listCommits_run. rewrite Hgd. simpl.
  unfold try_catch, rethrow_with_caller.
  destruct (listCommits_try G [] fuel gitdir_ args); simpl; [done| |done].
  by intros [= <-].
Qed.

End ListCommitsFacts.

(** ** The code on the small repositories *)

Lemma repo_edge branches shallow objects newFS gitdir_ child parents parent :
  lookup_assoc child objects = Some ("commit", parents) →
  child ∉ shallow → parent ∈ parents →
  parent_edge (repository branches shallow objects) newFS gitdir_
    (list_to_set shallow) child parent.
Proof.
  intros Hl Hs Hp. exists parents. split; [|split; [set_solver|done]].
  exists (mkGitObject "commit" parents). simpl. by rewrite Hl.
Qed.

Lemma repo_tag_object branches shallow objects newFS gitdir_ oid target rest :
  lookup_assoc oid objects = Some ("tag", target :: rest) →
  is_tag (repository branches shallow objects) newFS gitdir_ oid target.
Proof.
  intros Hl. exists (mkGitObject "tag" (target :: rest)). simpl. by rewrite Hl.
Qed.

(** C1, as stated, fails: the branch resolves to the tag [T] of the commit
    [A]; the returned map has the key [T] and does not have the key [A]. *)
Lemma tag_start_counterexample :
  ∃ v, listCommits repo_tag 2 args_tutorial = Ok v ∧
       is_tag repo_tag (new_FileSystem (Some tt)) "/tutorial/.git" "T" "A" ∧
       "T" ∈ dom v ∧ "A" ∉ dom v.
Proof.
  exists {[ "T" := {| children := [] |} ]}.
  split; [by vm_compute|]. split; [by eapply repo_tag_object|].
  rewrite dom_singleton_L. set_solver.
Qed.

(** The tag [T] of [repo_tag] is a key, and is walked as its target [A]. *)
Lemma tag_start_witness :
  "T" ∈ dom ({[ "T" := {| children := [] |} ]} : gmap string Entry) ∧
  (∀ n st,
     walk repo_tag (new_FileSystem (Some tt)) "/tutorial/.git" ∅ (1 + n) "T" st =
     walk repo_tag (new_FileSystem (Some tt)) "/tutorial/.git" ∅ n "A"
       {| visited := visited st; reads := reads st ++ ["T"] |}) ∧
  ("A" ∈ dom ({[ "T" := {| children := [] |} ]} : gmap string Entry) →
   "A" ∈ ["T"] ∨
   ∃ c, parent_edge repo_tag (new_FileSystem (Some tt)) "/tutorial/.git" ∅ c "A").
Proof.
  apply (tag_start_is_key_and_walks_as_target repo_tag "/tutorial/.git" args_tutorial 2
           (new_FileSystem (Some tt)) ∅ ["T"] _ "T" "A" [] "A").
  - reflexivity.
  - reflexivity.
  - vm_compute. reflexivity.
  - apply list_elem_of_here.
  - by eapply repo_tag_object.
  - apply peels_done.
Defined.

(** C2.  In the linear history [A <- B <- C] with branches at [C] and then
    at [B], the commit [B], which is neither shallow nor a tag, is read and
    expanded twice: once as the parent of [C], once as a starting hash. *)
Theorem ancestor_start_is_expanded_twice :
  ∃ st, listCommits_run repo_linear [] 3 args_tutorial = Ok st ∧
        reads st = ["C"; "B"; "A"; "B"] ∧
        length (filter (λ oid, oid = "B") (reads st)) = 2%nat ∧
        is_commit repo_linear (new_FileSystem (Some tt)) "/tutorial/.git" "B" ["A"].
Proof.
  eexists. split; [vm_compute; reflexivity|]. simpl.
  split; [done|]. split; [by vm_compute|].
  by exists (mkGitObject "commit" ["A"]).
Qed.

(** C3.  On the same repository the result lists [B] twice among the
    children of [A], and lists no child for [B] although [C] names [B] as
    its parent. *)
Theorem ancestor_start_children_are_wrong :
  listCommits repo_linear 3 args_tutorial =
  Ok {[ "A" := {| children := ["B"; "B"] |};
        "B" := {| children := [] |};
        "C" := {| children := [] |} ]} ∧
  parent_edge repo_linear (new_FileSystem (Some tt)) "/tutorial/.git" ∅ "C" "B" ∧
  parent_edge repo_linear (new_FileSystem (Some tt)) "/tutorial/.git" ∅ "B" "A".
Proof.
  split; [by vm_compute|].
  split; eapply (repo_edge _ []); (reflexivity || set_solver).
Qed.

(** C4.  On the same repository the walk from [C] leaves [B] with the
    child [C]; binding the next starting hash [B] replaces that record by
    one with no children, and the child is gone from the result. *)
Theorem start_binding_replaces_record :
  ∃ st1 st2,
    walk_startingSet repo_linear (new_FileSystem (Some tt)) "/tutorial/.git" ∅ 3
      ["C"] {| visited := ∅; reads := [] |} = Ok st1 ∧
    visited st1 !! "B" = Some {| children := ["C"] |} ∧
    walk_startingSet repo_linear (new_FileSystem (Some tt)) "/tutorial/.git" ∅ 3
      ["B"] st1 = Ok st2 ∧
    visited st2 !! "B" = Some {| children := [] |} ∧
    listCommits repo_linear 3 args_tutorial = Ok (visited st2).
Proof.
  eexists _, _. split; [vm_compute; reflexivity|].
  split; [by vm_compute|]. split; [vm_compute; reflexivity|].
  split; by vm_compute.
Qed.


(** In [repo_merge] the root [A] is reached from the starting hash [D]. *)
Lemma reachability_witness : "A" ∈ dom visited_merge.
Proof.
  apply (reachability_completeness repo_merge "/tutorial/.git" args_tutorial 3
           (new_FileSystem (Some tt)) (list_to_set []) ["C"; "D"] _ "D" "A").
  - reflexivity.
  - reflexivity.
  - vm_compute. reflexivity.
  - apply list_elem_of_further, list_elem_of_here.
  - eapply rtc_l; [|eapply rtc_l; [|apply rtc_refl]].
    + eapply (repo_edge _ []); [reflexivity| |apply list_elem_of_here].
      apply not_elem_of_nil.
    + eapply (repo_edge _ []); [reflexivity| |apply list_elem_of_here].
      apply not_elem_of_nil.
Defined.

(** C7, as stated, fails: the branch resolves to the tag [T] of the tree
    [X]; the error thrown names [X], not the hash [T] that was expanded. *)
Lemma error_names_target_counterexample :
  peels repo_tag_of_tree (new_FileSystem (Some tt)) "/tutorial/.git" ["T"] "T" "X" ∧
  readObject repo_tag_of_tree (new_FileSystem (Some tt)) "/tutorial/.git" "X"
    = inr (mkGitObject "tree" []) ∧
  walk repo_tag_of_tree (new_FileSystem (Some tt)) "/tutorial/.git" ∅ 2 "T"
    {| visited := {[ "T" := {| children := [] |} ]}; reads := [] |}
    = Throw (new_ObjectTypeError "X" "tree" "commit") ∧
  new_ObjectTypeError "X" "tree" "commit" ≠ new_ObjectTypeError "T" "tree" "commit" ∧
  listCommits repo_tag_of_tree 2 args_tutorial =
    Throw {| kind := ObjectTypeError "X" "tree" "commit";
             caller := Some "git.listBranches" |}.
Proof.
  split.
  { eapply peels_tag; [by eapply repo_tag_object|apply peels_done]. }
  split; [reflexivity|]. split; [by vm_compute|]. split; [done|by vm_compute].
Qed.

(** The error thrown on [repo_tag_of_tree] has its [caller]. *)
Lemma thrown_error_witness :
  caller {| kind := ObjectTypeError "X" "tree" "commit";
            caller := Some "git.listBranches" |} = Some "git.listBranches".
Proof.
  apply (thrown_error_carries_caller repo_tag_of_tree 2 "/tutorial/.git" args_tutorial).
  - reflexivity.
  - vm_compute. reflexivity.
Defined.

(** C10, as stated, fails: called with [fs] alone, the default of line 42
    calls [join] on a [dir] that is not there, and what [join] throws
    leaves the function without a [caller]; so does the error of a call
    without an argument object. *)
Lemma caller_missing_counterexample :
  (∃ e, listCommits repo_merge 3 args_fs_only = Throw e ∧ caller e = None) ∧
  (∃ e, listCommits_called repo_merge 3 None = Throw e ∧ caller e = None).
Proof. split; eexists; (split; [vm_compute; reflexivity|reflexivity]). Qed.

(** * The walk as a derivation: what it reads, lists and throws *)

Section DerivationFacts.
Context {FsClient Payload : Type}.
Variable G : Collaborators FsClient Payload.
Variable newFS : FileSystem FsClient.
Variable gitdir_ : string.
Variable shallows : gset string.

Local Abbreviation walk := (walk G newFS gitdir_ shallows).
Local Abbreviation walk_startingSet := (walk_startingSet G newFS gitdir_ shallows).
Local Abbreviation is_commit := (is_commit G newFS gitdir_).
Local Abbreviation is_tag := (is_tag G newFS gitdir_).
Local Abbreviation parent_edge := (parent_edge G newFS gitdir_ shallows).
Local Abbreviation peels := (peels G newFS gitdir_).
Local Abbreviation step := (step G newFS gitdir_ shallows).
Local Abbreviation out_edge := (out_edge G newFS gitdir_ shallows).
Local Abbreviation walks := (walks G newFS gitdir_ shallows).
Local Abbreviation walks_parents := (walks_parents G newFS gitdir_ shallows).
Local Abbreviation recorded := (recorded G newFS gitdir_ shallows).
Local Abbreviation children_sound := (children_sound G newFS gitdir_ shallows).
Local Abbreviation independent := (independent G newFS gitdir_ shallows).
Local Abbreviation raised_at := (raised_at G newFS gitdir_ shallows).

(** ** Every successful call has a derivation *)

Lemma walk_parents_walks (w : string → WalkState → outcome WalkState) :
  (∀ p st st', w p st = Ok st' → walks p st st') →
  ∀ oid ps st st', walk_parents w oid ps st = Ok st' → walks_parents oid ps st st'.
Proof.
  intros Hw oid ps. induction ps as [|p rest IH]; intros st st'.
  - intros [= <-]. constructor.
  - rewrite walk_parents_cons.
    destruct (hasOwnProperty (visited st) p) eqn:Hp; simpl.
    + apply hasOwnProperty_dom in Hp. intros Hrest.
      apply walks_parents_known; auto.
    + apply hasOwnProperty_not_dom in Hp.
      destruct (w p st) as [st1| |] eqn:Hwp; simpl; try done.
      intros Hrest. eapply walks_parents_new; eauto.
Qed.

Lemma walk_walks fuel : ∀ oid st st', walk fuel oid st = Ok st' → walks oid st st'.
Proof.
  induction fuel as [|fuel IH]; intros oid st st'; [done|].
  rewrite walk_S.
  destruct (readObject G newFS gitdir_ oid) as [e|o] eqn:Hr; [done|].
  simpl. case_bool_decide as Ht.
  - destruct (GitAnnotatedTag_object G (object o)) as [e|target] eqn:Hd; [done|].
    simpl. intros Hw. eapply walks_tag; [by exists o|by apply IH].
  - case_bool_decide as Hc; [done|].
    destruct (decide (oid ∈ shallows)) as [Hs|Hs].
    + rewrite bool_decide_eq_true_2 by done. simpl. intros [= <-].
      by eapply walks_shallow.
    + rewrite bool_decide_eq_false_2 by done. simpl.
      destruct (GitCommit_parent G (object o)) as [e|ps] eqn:Hd; [done|].
      simpl. intros Hw. eapply walks_commit; [by exists o|done|].
      by apply (walk_parents_walks _ IH).
Qed.

(** ** Tags, commits and the edges out of them *)

Lemma is_tag_functional oid t1 t2 : is_tag oid t1 → is_tag oid t2 → t1 = t2.
Proof. intros (o1 & H1 & _ & D1) (o2 & H2 & _ & D2). congruence. Qed.

Lemma is_tag_no_parent_edge oid target p : is_tag oid target → parent_edge oid p → False.
Proof. intros (o1 & H1 & T1 & _) (ps & (o2 & H2 & T2 & _) & _). congruence. Qed.

Lemma out_edge_tag oid target p : is_tag oid target → out_edge oid p ↔ out_edge target p.
Proof.
  intros Htag. split.
  - intros (tags & c & Hpeel & Hedge). inversion Hpeel as [|? next tags' ? Hn Hrest]; subst.
    + by destruct (is_tag_no_parent_edge _ _ _ Htag Hedge).
    + rewrite (is_tag_functional _ _ _ Htag Hn). by exists tags', c.
  - intros (tags & c & Hpeel & Hedge). exists (oid :: tags), c.
    split; [by eapply peels_tag|done].
Qed.

Lemma out_edge_not_tag oid p :
  (∀ target, ¬ is_tag oid target) → out_edge oid p ↔ parent_edge oid p.
Proof.
  intros Hnt. split.
  - intros (tags & c & Hpeel & Hedge). inversion Hpeel; subst; [done|]. by edestruct Hnt.
  - intros Hedge. exists [], oid. split; [constructor|done].
Qed.

Lemma is_commit_not_tag oid ps target : is_commit oid ps → ¬ is_tag oid target.
Proof. intros (o1 & H1 & T1 & _) (o2 & H2 & T2 & _). congruence. Qed.

Lemma commit_type_not_tag oid o target :
  readObject G newFS gitdir_ oid = inr o → type o = "commit" → ¬ is_tag oid target.
Proof. intros H1 T1 (o2 & H2 & T2 & _). congruence. Qed.

Lemma out_edge_commit oid ps p :
  is_commit oid ps → oid ∉ shallows → out_edge oid p ↔ p ∈ ps.
Proof.
  intros Hc Hs. rewrite out_edge_not_tag by (intros t; by eapply is_commit_not_tag).
  split.
  - intros (ps' & Hc' & _ & Hp). by rewrite (is_commit_functional _ _ _ _ _ _ Hc Hc').
  - intros Hp. by exists ps.
Qed.

Lemma out_edge_shallow oid o p :
  readObject G newFS gitdir_ oid = inr o → type o = "commit" → oid ∈ shallows →
  ¬ out_edge oid p.
Proof.
  intros Hr Ht Hs. rewrite out_edge_not_tag by (intros t; by eapply commit_type_not_tag).
  intros (ps & _ & Hn & _). done.
Qed.

(** ** Records only grow along a derivation *)

Lemma grows_refl (v : gmap string Entry) : grows v v.
Proof. intros k e Hk. by exists e. Qed.

Lemma grows_trans (v1 v2 v3 : gmap string Entry) : grows v1 v2 → grows v2 v3 → grows v1 v3.
Proof.
  intros H12 H23 k e Hk. destruct (H12 k e Hk) as (e2 & Hk2 & Hp2).
  destruct (H23 k e2 Hk2) as (e3 & Hk3 & Hp3). exists e3. split; [done|]. by etrans.
Qed.

Lemma grows_add_child k oid (v : gmap string Entry) : grows v (add_child k oid v).
Proof. intros k' e Hk'. by apply add_child_grows. Qed.

Lemma grows_dom (v v' : gmap string Entry) : grows v v' → dom v ⊆ dom v'.
Proof.
  intros Hg k [e Hk]%elem_of_dom. destruct (Hg k e Hk) as (e' & Hk' & _).
  apply elem_of_dom. by exists e'.
Qed.

Lemma grows_child (v v' : gmap string Entry) p e c :
  grows v v' → v !! p = Some e → c ∈ children e →
  ∃ e', v' !! p = Some e' ∧ c ∈ children e'.
Proof.
  intros Hg Hp Hc. destruct (Hg p e Hp) as (e' & Hp' & [l Hl]).
  exists e'. split; [done|]. rewrite Hl. set_solver.
Qed.

Lemma walks_grows :
  (∀ oid st st', walks oid st st' → grows (visited st) (visited st')) ∧
  (∀ oid ps st st', walks_parents oid ps st st' → grows (visited st) (visited st')).
Proof.
  apply walks_mutind; simpl; intros; eauto using grows_refl.
  - eapply grows_trans; [apply grows_add_child|done].
  - eapply grows_trans; [eassumption|].
    eapply grows_trans; [apply grows_add_child|done].
Qed.

Lemma walks_dom oid st st' : walks oid st st' → dom (visited st) ⊆ dom (visited st').
Proof. intros H. by apply grows_dom, (proj1 walks_grows oid). Qed.

Lemma walks_parents_dom oid ps st st' :
  walks_parents oid ps st st' → dom (visited st) ⊆ dom (visited st').
Proof. intros H. by apply grows_dom, (proj2 walks_grows oid ps). Qed.

(** ** The keys a derivation adds *)

Lemma tc_out_edge_tag oid target k :
  is_tag oid target → tc out_edge target k → tc out_edge oid k.
Proof.
  intros Htag Htc. inversion Htc as [? ? H1|? y ? H1 Hrest]; subst.
  - apply tc_once. by apply (out_edge_tag _ _ _ Htag).
  - eapply tc_l; [|done]. by apply (out_edge_tag _ _ _ Htag).
Qed.

(** A call leaves every hash one [out_edge] away from its argument among
    the keys; each key it adds has the same property and is reached from
    the argument by at least one [out_edge]. *)
Lemma walks_keys :
  (∀ oid st st', walks oid st st' →
     (∀ p, out_edge oid p → p ∈ dom (visited st')) ∧
     (∀ k, k ∈ dom (visited st') → k ∉ dom (visited st) →
        (∀ p, out_edge k p → p ∈ dom (visited st')) ∧ tc out_edge oid k)) ∧
  (∀ oid ps st st', walks_parents oid ps st st' →
     (∀ p, p ∈ ps → p ∈ dom (visited st')) ∧
     (∀ k, k ∈ dom (visited st') → k ∉ dom (visited st) →
        (∀ p, out_edge k p → p ∈ dom (visited st')) ∧
        (k ∈ ps ∨ ∃ p, p ∈ ps ∧ tc out_edge p k))).
Proof.
  apply walks_mutind.
  - (* tag *)
    intros oid target st st' Htag _ [Hout Hnew]. split.
    + intros p Hp. apply Hout. by apply (out_edge_tag _ _ _ Htag).
    + intros k Hk Hnk. destruct (Hnew k Hk Hnk) as [Hc Htc].
      split; [done|]. by eapply tc_out_edge_tag.
  - (* shallow *)
    intros oid o st Hr Ht Hs. split.
    + intros p Hp. by destruct (out_edge_shallow _ _ _ Hr Ht Hs Hp).
    + intros k Hk Hnk. done.
  - (* commit *)
    intros oid ps st st' Hc Hs _ [Hps Hnew]. split.
    + intros p Hp. apply Hps. by apply (out_edge_commit _ _ _ Hc Hs).
    + intros k Hk Hnk. destruct (Hnew k Hk Hnk) as [Hcl Hor]. split; [done|].
      destruct Hor as [Hin|(p & Hin & Htc)].
      * apply tc_once. by apply (out_edge_commit _ _ _ Hc Hs).
      * eapply tc_l; [|done]. by apply (out_edge_commit _ _ _ Hc Hs).
  - (* no parent left *)
    intros oid st. split; [by intros ? ?%elem_of_nil|done].
  - (* a parent that is a key already *)
    intros oid p rest st st' Hp Hrest [Hps Hnew]. simpl in *.
    apply walks_parents_dom in Hrest. simpl in Hrest.
    rewrite dom_add_child in Hrest, Hnew. split.
    + intros q [->|Hq]%elem_of_cons; [set_solver|auto].
    + intros k Hk Hnk. destruct (Hnew k Hk) as [Hc Hor]; [set_solver|].
      split; [done|]. setoid_rewrite elem_of_cons. naive_solver.
  - (* a parent that is walked *)
    intros oid p rest st st1 st' Hp Hw [Hout1 Hnew1] Hrest [Hps Hnew]. simpl in *.
    apply walks_dom in Hw. apply walks_parents_dom in Hrest. simpl in Hrest.
    rewrite dom_add_child in Hrest, Hnew. split.
    + intros q [->|Hq]%elem_of_cons; [set_solver|auto].
    + intros k Hk Hnk. setoid_rewrite elem_of_cons.
      destruct (decide (k = p)) as [->|Hkp].
      { split; [|by left; left]. intros x Hx. apply Hrest. set_solver. }
      destruct (decide (k ∈ dom (visited st1))) as [Hk1|Hk1].
      { destruct (Hnew1 k Hk1 Hnk) as [Hc Htc]. split.
        - intros x Hx. apply Hrest. set_solver.
        - right. exists p. by split; [left|]. }
      destruct (Hnew k Hk) as [Hc Hor]; [set_solver|].
      split; [done|]. naive_solver.
Qed.

(** The start loop: the keys stay closed under [out_edge], every starting
    hash is a key, and a key that is added is a starting hash or reached
    from one. *)
Lemma walk_startingSet_out_edges fuel : ∀ startingSet st st',
  walk_startingSet fuel startingSet st = Ok st' →
  (∀ k p, k ∈ dom (visited st) → out_edge k p → p ∈ dom (visited st)) →
  dom (visited st) ⊆ dom (visited st') ∧
  (∀ s, s ∈ startingSet → s ∈ dom (visited st')) ∧
  (∀ k p, k ∈ dom (visited st') → out_edge k p → p ∈ dom (visited st')) ∧
  (∀ k, k ∈ dom (visited st') → k ∉ dom (visited st) →
     ∃ s, s ∈ startingSet ∧ rtc out_edge s k).
Proof.
  induction startingSet as [|oid rest IH]; intros st st'.
  - intros [= <-] Hcl. split; [done|]. split; [by intros ? ?%elem_of_nil|]. done.
  - simpl. destruct (walk fuel oid _) as [st1| |] eqn:Hw; simpl; try done.
    intros Hrest Hcl. apply walk_walks in Hw.
    pose proof (walks_dom _ _ _ Hw) as Hsub1.
    destruct (proj1 walks_keys _ _ _ Hw) as [Hout1 Hnew1]. simpl in *.
    rewrite dom_set_empty_entry in Hsub1, Hnew1.
    assert (∀ k p, k ∈ dom (visited st1) → out_edge k p → p ∈ dom (visited st1))
      as Hcl1.
    { intros k p Hk Hkp.
      destruct (decide (k = oid)) as [->|Hne]; [auto|].
      destruct (decide (k ∈ dom (visited st))) as [Hin|Hin].
      - apply Hsub1. apply elem_of_union_r. by apply (Hcl k p).
      - apply (Hnew1 k Hk); [set_solver|done]. }
    destruct (IH _ _ Hrest Hcl1) as (Hsub & Hstart & Hcl' & Hnew).
    split; [set_solver|]. split; [|split; [done|]].
    + intros s [->|Hs]%elem_of_cons; [set_solver|auto].
    + intros k Hk Hnk. setoid_rewrite elem_of_cons.
      destruct (decide (k = oid)) as [->|Hne]; [exists oid; by split; [left|]|].
      destruct (decide (k ∈ dom (visited st1))) as [Hin|Hin].
      * exists oid. split; [by left|]. apply tc_rtc, (Hnew1 k Hin). set_solver.
      * destruct (Hnew k Hk Hin) as (s & Hs & Hr). exists s. by split; [right|].
Qed.

(** ** The children a derivation lists *)

Lemma add_child_lookup k oid (v : gmap string Entry) :
  ∃ e, add_child k oid v !! k = Some e ∧ oid ∈ children e.
Proof.
  unfold add_child. rewrite lookup_insert_eq. eexists. split; [done|]. simpl.
  set_solver.
Qed.

Lemma add_child_lookup_ne k k' oid (v : gmap string Entry) :
  k ≠ k' → add_child k oid v !! k' = v !! k'.
Proof. intros Hne. unfold add_child. by rewrite lookup_insert_ne. Qed.

Lemma add_child_children k oid (v : gmap string Entry) e c :
  add_child k oid v !! k = Some e → c ∈ children e →
  c = oid ∨ ∃ e0, v !! k = Some e0 ∧ c ∈ children e0.
Proof.
  unfold add_child. rewrite lookup_insert_eq. intros [= <-]. simpl.
  intros [Hc|Hc%list_elem_of_singleton]%elem_of_app; [|by left].
  right. destruct (v !! k) as [e0|]; simpl in *; [by exists e0|].
  by apply elem_of_nil in Hc.
Qed.

Lemma children_sound_add_child p oid (v : gmap string Entry) :
  parent_edge oid p → children_sound v → children_sound (add_child p oid v).
Proof.
  intros Hedge Hs q e c Hq Hc. destruct (decide (p = q)) as [<-|Hne].
  - destruct (add_child_children _ _ _ _ _ Hq Hc) as [->|(e0 & He0 & Hc0)]; [done|].
    by apply (Hs p e0).
  - rewrite add_child_lookup_ne in Hq by done. by apply (Hs q e).
Qed.

Lemma children_sound_set_empty_entry s (v : gmap string Entry) :
  children_sound v → children_sound (set_empty_entry s v).
Proof.
  intros Hs q e c Hq Hc. unfold set_empty_entry in Hq.
  destruct (decide (s = q)) as [<-|Hne].
  - rewrite lookup_insert_eq in Hq. injection Hq as <-. by apply elem_of_nil in Hc.
  - rewrite lookup_insert_ne in Hq by done. by apply (Hs q e).
Qed.

(** Whatever a call lists as a child is a real child. *)
Lemma walks_children_sound :
  (∀ oid st st', walks oid st st' →
     children_sound (visited st) → children_sound (visited st')) ∧
  (∀ oid ps st st', walks_parents oid ps st st' →
     (∀ p, p ∈ ps → parent_edge oid p) →
     children_sound (visited st) → children_sound (visited st')).
Proof.
  apply walks_mutind; simpl; auto.
  - intros oid ps st st' Hc Hs _ IH Hsound. apply IH; [|done].
    intros p Hp. by exists ps.
  - intros oid p rest st st' Hp _ IH Hedge Hsound.
    apply IH; [intros q Hq; apply Hedge; by right|].
    apply children_sound_add_child; [apply Hedge; by left|done].
  - intros oid p rest st st1 st' Hp _ IH1 _ IH Hedge Hsound.
    apply IH; [intros q Hq; apply Hedge; by right|].
    apply children_sound_add_child; [apply Hedge; by left|auto].
Qed.

Lemma recorded_grows (v v' : gmap string Entry) k : grows v v' → recorded v k → recorded v' k.
Proof.
  intros Hg Hr tags c p Hpeel Hedge. destruct (Hr tags c p Hpeel Hedge) as (e & He & Hc).
  by eapply grows_child.
Qed.

(** A call lists the commit its argument peels to under each of its
    parents, and does the same for every key it adds. *)
Lemma walks_recorded :
  (∀ oid st st', walks oid st st' →
     recorded (visited st') oid ∧
     (∀ k, k ∈ dom (visited st') → k ∉ dom (visited st) → recorded (visited st') k)) ∧
  (∀ oid ps st st', walks_parents oid ps st st' →
     (∀ p, p ∈ ps → ∃ e, visited st' !! p = Some e ∧ oid ∈ children e) ∧
     (∀ k, k ∈ dom (visited st') → k ∉ dom (visited st) → recorded (visited st') k)).
Proof.
  apply walks_mutind.
  - intros oid target st st' Htag _ [Hrec Hnew]. split; [|done].
    intros tags c p Hpeel Hedge.
    inversion Hpeel as [|? next tags' ? Hn Hrest]; subst.
    + by destruct (is_tag_no_parent_edge _ _ _ Htag Hedge).
    + rewrite <- (is_tag_functional _ _ _ Htag Hn) in Hrest. by eapply Hrec.
  - intros oid o st Hr Ht Hs. split; [|done].
    intros tags c p Hpeel Hedge.
    inversion Hpeel as [|? next tags' ? Hn Hrest]; subst.
    + destruct Hedge as (ps & _ & Hn & _). done.
    + by destruct (commit_type_not_tag _ _ _ Hr Ht Hn).
  - intros oid ps st st' Hc Hs _ [Hps Hnew]. split; [|done].
    intros tags c p Hpeel Hedge.
    inversion Hpeel as [|? next tags' ? Hn Hrest]; subst.
    + apply Hps. destruct Hedge as (ps' & Hc' & _ & Hp).
      by rewrite (is_commit_functional _ _ _ _ _ _ Hc Hc').
    + by destruct (is_commit_not_tag _ _ _ Hc Hn).
  - intros oid st. split; [by intros ? ?%elem_of_nil|done].
  - intros oid p rest st st' Hp Hrest [Hps Hnew]. simpl in *.
    pose proof (proj2 walks_grows _ _ _ _ Hrest) as Hg. simpl in Hg.
    rewrite dom_add_child in Hnew. split.
    + intros q [->|Hq]%elem_of_cons; [|auto].
      destruct (add_child_lookup p oid (visited st)) as (e & He & Hc).
      apply (grows_child _ _ _ _ _ Hg He Hc).
    + intros k Hk Hnk. apply Hnew; [done|set_solver].
  - intros oid p rest st st1 st' Hp Hw [Hrec1 Hnew1] Hrest [Hps Hnew]. simpl in *.
    pose proof (proj2 walks_grows _ _ _ _ Hrest) as Hg. simpl in Hg.
    assert (grows (visited st1) (visited st')) as Hg1.
    { eapply grows_trans; [apply (grows_add_child p oid)|done]. }
    rewrite dom_add_child in Hnew. split.
    + intros q [->|Hq]%elem_of_cons; [|auto].
      destruct (add_child_lookup p oid (visited st1)) as (e & He & Hc).
      apply (grows_child _ _ _ _ _ Hg He Hc).
    + intros k Hk Hnk.
      destruct (decide (k = p)) as [->|Hkp]; [by eapply recorded_grows|].
      destruct (decide (k ∈ dom (visited st1))) as [Hk1|Hk1].
      * eapply recorded_grows; [done|]. by apply Hnew1.
      * apply Hnew; [done|set_solver].
Qed.

(** ** The objects a derivation reads *)

Lemma walks_reads :
  (∀ oid st st', walks oid st st' →
     ∃ more, reads st' = (reads st ++ oid :: more)%list ∧ ∀ r, r ∈ more → tc step oid r) ∧
  (∀ oid ps st st', walks_parents oid ps st st' →
     ∃ more, reads st' = (reads st ++ more)%list ∧
             ∀ r, r ∈ more → ∃ p, p ∈ ps ∧ rtc step p r).
Proof.
  apply walks_mutind.
  - intros oid target st st' Htag _ (more & Hreads & Hmore). simpl in Hreads.
    exists (target :: more). split; [by rewrite Hreads, <- app_assoc|].
    intros r [->|Hr]%elem_of_cons.
    + apply tc_once. by left.
    + eapply tc_l; [by left|auto].
  - intros oid o st _ _ _. exists []. split; [done|by intros ? ?%elem_of_nil].
  - intros oid ps st st' Hc Hs _ (more & Hreads & Hmore). simpl in Hreads.
    exists more. split; [by rewrite Hreads, <- app_assoc|].
    intros r Hr. destruct (Hmore r Hr) as (p & Hp & Hrtc).
    eapply tc_rtc_r; [|done]. apply tc_once. right. by exists ps.
  - intros oid st. exists []. split; [by rewrite app_nil_r|by intros ? ?%elem_of_nil].
  - intros oid p rest st st' _ _ (more & Hreads & Hmore). simpl in Hreads.
    exists more. split; [done|]. intros r Hr.
    destruct (Hmore r Hr) as (q & Hq & Hrtc). exists q. by split; [right|].
  - intros oid p rest st st1 st' _ _ (more1 & Hreads1 & Hmore1) _ (more & Hreads & Hmore).
    simpl in Hreads. exists (p :: more1 ++ more)%list.
    split; [by rewrite Hreads, Hreads1, <- !app_assoc|].
    intros r [->|[Hr|Hr]%elem_of_app]%elem_of_cons.
    + exists p. by split; [left|].
    + exists p. split; [by left|]. by apply tc_rtc, Hmore1.
    + destruct (Hmore r Hr) as (q & Hq & Hrtc). exists q. by split; [right|].
Qed.

(** Every key a derivation adds was read by it. *)
Lemma walks_new_keys_read :
  (∀ oid st st', walks oid st st' →
     ∀ k, k ∈ dom (visited st') → k ∉ dom (visited st) → k ∈ reads st') ∧
  (∀ oid ps st st', walks_parents oid ps st st' →
     ∀ k, k ∈ dom (visited st') → k ∉ dom (visited st) → k ∈ reads st').
Proof.
  apply walks_mutind; try done.
  - intros oid p rest st st' Hp _ IH k Hk Hnk. simpl in IH.
    rewrite dom_add_child in IH. apply IH; [done|set_solver].
  - intros oid p rest st st1 st' Hp Hw IH1 Hrest IH k Hk Hnk. simpl in IH.
    rewrite dom_add_child in IH.
    destruct (proj2 walks_reads _ _ _ _ Hrest) as (more & Hreads & _). simpl in Hreads.
    destruct (proj1 walks_reads _ _ _ Hw) as (more1 & Hreads1 & _).
    destruct (decide (k = p)) as [->|Hkp].
    { rewrite Hreads, Hreads1. set_solver. }
    destruct (decide (k ∈ dom (visited st1))) as [Hk1|Hk1].
    { rewrite Hreads. apply elem_of_app. left. by apply IH1. }
    apply IH; [done|set_solver].
Qed.

(** ** Each object once: stores without tags and without cycles *)

Section Tidy.
Variable rank : string → nat.
Hypothesis no_tags : ∀ oid target, ¬ is_tag oid target.
Hypothesis rank_parent : ∀ c p, parent_edge c p → (rank p < rank c)%nat.
Hypothesis parents_NoDup : ∀ c ps, is_commit c ps → NoDup ps.

Lemma tidy_record_read oid st : tidy st → oid ∉ reads st → tidy (record_read oid st).
Proof.
  intros [Hnd Hch] Hoid. split; simpl.
  - apply NoDup_app. split; [done|]. split; [|apply NoDup_singleton].
    intros x Hx ->%list_elem_of_singleton. done.
  - intros p e Hp. destruct (Hch p e Hp) as [Hn Hin]. split; [done|].
    intros c Hc. apply elem_of_app. left. auto.
Qed.

Lemma tidy_add_child p oid v r :
  tidy {| visited := v; reads := r |} → oid ∈ r →
  (∀ e, v !! p = Some e → oid ∉ children e) →
  tidy {| visited := add_child p oid v; reads := r |}.
Proof.
  intros [Hnd Hch] Hoid Hfresh. split; [done|]. simpl in *.
  intros q e Hq. destruct (decide (p = q)) as [<-|Hne].
  - unfold add_child in Hq. rewrite lookup_insert_eq in Hq. injection Hq as <-. simpl.
    destruct (v !! p) as [e0|] eqn:Hp; simpl.
    + destruct (Hch p e0 Hp) as [Hn Hin]. split.
      * apply NoDup_app. split; [done|]. split; [|apply NoDup_singleton].
        intros x Hx ->%list_elem_of_singleton. by apply (Hfresh e0).
      * intros c [Hc| ->%list_elem_of_singleton]%elem_of_app; auto.
    + split; [apply NoDup_singleton|]. by intros c ->%list_elem_of_singleton.
  - rewrite add_child_lookup_ne in Hq by done. apply (Hch q e Hq).
Qed.

Lemma tidy_set_empty_entry s st :
  tidy st → tidy {| visited := set_empty_entry s (visited st); reads := reads st |}.
Proof.
  intros [Hnd Hch]. split; [done|]. simpl. intros q e Hq. unfold set_empty_entry in Hq.
  destruct (decide (s = q)) as [<-|Hne].
  - rewrite lookup_insert_eq in Hq. injection Hq as <-. simpl.
    split; [apply NoDup_nil_2|by intros ? ?%elem_of_nil].
  - rewrite lookup_insert_ne in Hq by done. apply (Hch q e Hq).
Qed.

(** A call on a hash that was not read yet keeps the state tidy, reads
    its argument and then only hashes that end up as keys, and lists no
    hash that had been read before under any key. *)
Lemma walks_tidy :
  (∀ oid st st', walks oid st st' →
     tidy st → oid ∉ reads st →
     (∀ r, r ∈ reads st → r ∈ dom (visited st) ∨ (rank oid < rank r)%nat) →
     tidy st' ∧
     (∃ more, reads st' = (reads st ++ oid :: more)%list ∧
              ∀ r, r ∈ more → r ∈ dom (visited st')) ∧
     (∀ p e' c, visited st' !! p = Some e' → c ∈ children e' → c ∈ reads st →
        ∃ e, visited st !! p = Some e ∧ c ∈ children e)) ∧
  (∀ oid ps st st', walks_parents oid ps st st' →
     (∀ p, p ∈ ps → (rank p < rank oid)%nat) → NoDup ps →
     tidy st → oid ∈ reads st →
     (∀ r, r ∈ reads st → r ∈ dom (visited st) ∨ (rank oid ≤ rank r)%nat) →
     (∀ p e, p ∈ ps → visited st !! p = Some e → oid ∉ children e) →
     tidy st' ∧
     (∃ more, reads st' = (reads st ++ more)%list ∧
              ∀ r, r ∈ more → r ∈ dom (visited st')) ∧
     (∀ p e' c, visited st' !! p = Some e' → c ∈ children e' → c ∈ reads st →
        c ≠ oid → ∃ e, visited st !! p = Some e ∧ c ∈ children e)).
Proof.
  apply walks_mutind.
  - intros oid target st st' Htag. by destruct (no_tags _ _ Htag).
  - intros oid o st _ _ _ Htidy Hoid _. split; [by apply tidy_record_read|].
    split; [exists []; split; [done|by intros ? ?%elem_of_nil]|].
    intros p e' c Hp Hc _. by exists e'.
  - intros oid ps st st' Hc Hs _ IH Htidy Hoid Hrank.
    destruct IH as (Htidy' & (more & Hreads & Hmore) & Hold).
    + intros p Hp. apply rank_parent. by exists ps.
    + by eapply parents_NoDup.
    + by apply tidy_record_read.
    + simpl. set_solver.
    + simpl. intros r [Hr| ->%list_elem_of_singleton]%elem_of_app; [|right; lia].
      destruct (Hrank r Hr); [by left|right; lia].
    + simpl. intros p e _ Hp Hin. apply Hoid. by apply (proj2 Htidy p e).
    + split; [done|]. split.
      * exists more. simpl in Hreads. by rewrite Hreads, <- app_assoc.
      * intros p e' c Hp Hin Hread. apply (Hold p e' c Hp Hin).
        -- simpl. set_solver.
        -- intros ->. done.
  - intros oid st _ _ Htidy _ _ _. split; [done|].
    split; [exists []; split; [by rewrite app_nil_r|by intros ? ?%elem_of_nil]|].
    intros p e' c Hp Hc _ _. by exists e'.
  - intros oid p rest st st' Hp Hrest IH Hrk Hnd Htidy Hoid Hrank Hfresh.
    apply NoDup_cons in Hnd as [Hprest Hnd].
    destruct IH as (Htidy' & (more & Hreads & Hmore) & Hold).
    + intros q Hq. apply Hrk. by right.
    + done.
    + destruct st as [v r]. simpl in *. apply tidy_add_child; [done..|].
      intros e He. apply (Hfresh p e); [by left|done].
    + done.
    + simpl. intros r Hr. rewrite dom_add_child.
      destruct (Hrank r Hr); [left; set_solver|by right].
    + simpl. intros q e Hq Hlk.
      rewrite add_child_lookup_ne in Hlk by (intros ->; done).
      apply (Hfresh q e); [by right|done].
    + split; [done|]. split; [by exists more|].
      intros q e' c Hq Hin Hread Hne. simpl in Hold.
      destruct (Hold q e' c Hq Hin Hread Hne) as (e2 & He2 & Hc2).
      destruct (decide (p = q)) as [<-|Hpq].
      * by destruct (add_child_children _ _ _ _ _ He2 Hc2) as [->|?].
      * rewrite add_child_lookup_ne in He2 by done. by exists e2.
  - intros oid p rest st st1 st' Hp Hw IH1 Hrest IH Hrk Hnd Htidy Hoid Hrank Hfresh.
    apply NoDup_cons in Hnd as [Hprest Hnd].
    assert (rank p < rank oid)%nat as Hrkp by (apply Hrk; by left).
    destruct IH1 as (Htidy1 & (more1 & Hreads1 & Hmore1) & Hold1).
    + done.
    + intros Hpr. destruct (Hrank p Hpr); [done|lia].
    + intros r Hr. destruct (Hrank r Hr); [by left|right; lia].
    + pose proof (walks_dom _ _ _ Hw) as Hsub1.
      assert (oid ∈ reads st1) as Hoid1 by (rewrite Hreads1; set_solver).
      destruct IH as (Htidy' & (more & Hreads & Hmore) & Hold).
      * intros q Hq. apply Hrk. by right.
      * done.
      * destruct st1 as [v1 r1]. simpl in *. apply tidy_add_child; [done..|].
        intros e He Hin. destruct (Hold1 p e oid He Hin Hoid) as (e0 & He0 & _).
        apply Hp. apply elem_of_dom. by exists e0.
      * done.
      * simpl. intros r Hr. rewrite dom_add_child. rewrite Hreads1 in Hr.
        apply elem_of_app in Hr as [Hr|[->|Hr]%elem_of_cons].
        -- destruct (Hrank r Hr); [left; set_solver|by right].
        -- left; set_solver.
        -- left. apply elem_of_union_r. by apply Hmore1.
      * simpl. intros q e Hq Hlk Hin.
        rewrite add_child_lookup_ne in Hlk by (intros ->; done).
        destruct (Hold1 q e oid Hlk Hin Hoid) as (e0 & He0 & Hin0).
        apply (Hfresh q e0); [by right|done..].
      * pose proof (walks_parents_dom _ _ _ _ Hrest) as Hsub. simpl in Hsub.
        rewrite dom_add_child in Hsub.
        split; [done|]. split.
        -- exists (p :: more1 ++ more)%list. simpl in Hreads.
           split; [by rewrite Hreads, Hreads1, <- !app_assoc|].
           intros r [->|[Hr|Hr]%elem_of_app]%elem_of_cons; [set_solver| |auto].
           apply Hsub. apply elem_of_union_r. by apply Hmore1.
        -- intros q e' c Hq Hin Hread Hne. simpl in Hold.
           assert (c ∈ reads st1) as Hread1 by (rewrite Hreads1; set_solver).
           destruct (Hold q e' c Hq Hin Hread1 Hne) as (e2 & He2 & Hc2).
           destruct (decide (p = q)) as [<-|Hpq].
           ++ destruct (add_child_children _ _ _ _ _ He2 Hc2) as [->|(e1 & He1 & Hc1)];
                [done|]. by apply (Hold1 p e1 c).
           ++ rewrite add_child_lookup_ne in He2 by done. by apply (Hold1 q e2 c).
Qed.

End Tidy.

(** ** The start loop when no starting hash is reached from another *)

Lemma grows_set_empty_entry_fresh s (v : gmap string Entry) :
  s ∉ dom v → grows v (set_empty_entry s v).
Proof.
  intros Hs k e Hk. exists e. split; [|done]. unfold set_empty_entry.
  rewrite lookup_insert_ne; [done|]. intros ->. apply Hs, elem_of_dom. by exists e.
Qed.

(** A property of the state that binding a fresh starting hash and walking
    it preserves holds at the end of the start loop, when every starting
    hash is fresh at its turn: none is reached from [done] or from the
    starting hashes before it. *)
Lemma walk_startingSet_fresh_inv (I : WalkState → Prop) fuel :
  (∀ s st st', s ∉ dom (visited st) → I st →
     walks s {| visited := set_empty_entry s (visited st); reads := reads st |} st' →
     I st') →
  ∀ l done st st',
    walk_startingSet fuel l st = Ok st' →
    (∀ k, k ∈ dom (visited st) → ∃ s, s ∈ done ∧ rtc out_edge s k) →
    (∀ pre s' post, l = (pre ++ s' :: post)%list →
       ∀ s, s ∈ (done ++ pre)%list → ¬ rtc out_edge s s') →
    I st → I st'.
Proof.
  intros Hstep. induction l as [|s' rest IH]; intros done st st'.
  - by intros [= <-].
  - simpl. destruct (walk fuel s' _) as [st1| |] eqn:Hw; simpl; try done.
    intros Hrest Hprov Hind HI. apply walk_walks in Hw.
    assert (s' ∉ dom (visited st)) as Hfresh.
    { intros (s & Hs & Hr)%Hprov. apply (Hind [] s' rest eq_refl s); [|done].
      by rewrite app_nil_r. }
    apply (IH (done ++ [s'])%list st1 st' Hrest).
    + intros k Hk.
      destruct (decide (k ∈ dom (visited st))) as [Hin|Hin].
      { destruct (Hprov k Hin) as (s & Hs & Hr). exists s. split; [set_solver|done]. }
      exists s'. split; [set_solver|].
      destruct (decide (k = s')) as [->|Hne]; [done|].
      apply tc_rtc, (proj2 (proj1 walks_keys _ _ _ Hw) k Hk). simpl.
      rewrite dom_set_empty_entry. set_solver.
    + intros pre x post -> s Hs. apply (Hind (s' :: pre) x post eq_refl).
      rewrite <- app_assoc in Hs. done.
    + by apply (Hstep s' st st1).
Qed.

Lemma independent_positions l :
  NoDup l → independent l →
  ∀ pre s' post, l = (pre ++ s' :: post)%list →
    ∀ s, s ∈ ([] ++ pre)%list → ¬ rtc out_edge s s'.
Proof.
  intros Hnd Hind pre s' post -> s Hs. simpl in Hs.
  apply NoDup_app in Hnd as (_ & Hdisj & _).
  apply Hind; [set_solver|set_solver|]. intros ->. apply (Hdisj s' Hs). by left.
Qed.

Lemma rtc_out_edge_rank (rank : string → nat) s s' :
  (∀ a b, out_edge a b → (rank b < rank a)%nat) →
  rtc out_edge s s' → s = s' ∨ (rank s' < rank s)%nat.
Proof.
  intros Hrk. induction 1 as [|x y z Hxy _ IH]; [by left|].
  right. apply Hrk in Hxy. destruct IH as [<-|?]; lia.
Qed.

(** Starting hashes of one rank are not reached from one another. *)
Lemma independent_same_rank (rank : string → nat) l :
  (∀ a b, out_edge a b → (rank b < rank a)%nat) →
  (∀ s s', s ∈ l → s' ∈ l → rank s = rank s') →
  independent l.
Proof.
  intros Hrk Hsame s s' Hs Hs' Hne Hreach.
  destruct (rtc_out_edge_rank rank _ _ Hrk Hreach) as [?|Hlt]; [done|].
  rewrite (Hsame s s' Hs Hs') in Hlt. lia.
Qed.

Lemma walk_startingSet_recorded fuel l st' :
  walk_startingSet fuel l {| visited := ∅; reads := [] |} = Ok st' →
  NoDup l → independent l →
  ∀ k, k ∈ dom (visited st') → recorded (visited st') k.
Proof.
  intros Hw Hnd Hind.
  apply (walk_startingSet_fresh_inv
           (λ st, ∀ k, k ∈ dom (visited st) → recorded (visited st) k)
           fuel) with (l := l) (done := []) (st := {| visited := ∅; reads := [] |});
    [|done|simpl; set_solver|by apply independent_positions|simpl; set_solver].
  intros s st st1 Hfresh HI Hwalk k Hk.
  pose proof (proj1 walks_grows _ _ _ Hwalk) as Hg. simpl in Hg.
  destruct (proj1 walks_recorded _ _ _ Hwalk) as [Hrec Hnew]. simpl in Hnew.
  rewrite dom_set_empty_entry in Hnew.
  destruct (decide (k = s)) as [->|Hne]; [done|].
  destruct (decide (k ∈ dom (visited st))) as [Hin|Hin].
  - eapply recorded_grows; [|by apply HI].
    eapply grows_trans; [by apply grows_set_empty_entry_fresh|done].
  - apply Hnew; [done|set_solver].
Qed.

Lemma walk_startingSet_children_sound fuel : ∀ l st st',
  walk_startingSet fuel l st = Ok st' →
  children_sound (visited st) → children_sound (visited st').
Proof.
  induction l as [|s rest IH]; intros st st'; [by intros [= <-]|].
  simpl. destruct (walk fuel s _) as [st1| |] eqn:Hw; simpl; try done.
  intros Hrest Hs. apply (IH _ _ Hrest).
  apply walk_walks in Hw. apply (proj1 walks_children_sound _ _ _ Hw). simpl.
  by apply children_sound_set_empty_entry.
Qed.

Lemma walk_startingSet_reads fuel : ∀ l st st',
  walk_startingSet fuel l st = Ok st' →
  (∀ k, k ∈ dom (visited st) → k ∈ reads st) →
  (∀ k, k ∈ dom (visited st') → k ∈ reads st') ∧
  ∃ more, reads st' = (reads st ++ more)%list ∧
          ∀ r, r ∈ more → ∃ s, s ∈ l ∧ rtc step s r.
Proof.
  induction l as [|s rest IH]; intros st st'.
  - intros [= <-] Hk. split; [done|]. exists []. split; [by rewrite app_nil_r|].
    by intros ? ?%elem_of_nil.
  - simpl. destruct (walk fuel s _) as [st1| |] eqn:Hw; simpl; try done.
    intros Hrest Hkeys. apply walk_walks in Hw.
    destruct (proj1 walks_reads _ _ _ Hw) as (more1 & Hreads1 & Hmore1). simpl in *.
    pose proof (proj1 walks_new_keys_read _ _ _ Hw) as Hnew. simpl in Hnew.
    rewrite dom_set_empty_entry in Hnew.
    destruct (IH _ _ Hrest) as (Hkeys' & more & Hreads & Hmore).
    { intros k Hk. destruct (decide (k = s)) as [->|Hne]; [rewrite Hreads1; set_solver|].
      destruct (decide (k ∈ dom (visited st))) as [Hin|Hin].
      - rewrite Hreads1. apply elem_of_app. left. auto.
      - apply Hnew; [done|set_solver]. }
    split; [done|]. exists (s :: more1 ++ more)%list.
    split; [by rewrite Hreads, Hreads1, <- !app_assoc|].
    intros r [->|[Hr|Hr]%elem_of_app]%elem_of_cons.
    + exists s. by split; [left|].
    + exists s. split; [by left|]. by apply tc_rtc, Hmore1.
    + destruct (Hmore r Hr) as (q & Hq & Hrtc). exists q. by split; [right|].
Qed.

Lemma walk_startingSet_tidy (rank : string → nat) fuel l st' :
  (∀ oid target, ¬ is_tag oid target) →
  (∀ c p, parent_edge c p → (rank p < rank c)%nat) →
  (∀ c ps, is_commit c ps → NoDup ps) →
  walk_startingSet fuel l {| visited := ∅; reads := [] |} = Ok st' →
  NoDup l → independent l →
  tidy st' ∧ ∀ r, r ∈ reads st' → r ∈ dom (visited st').
Proof.
  intros Hnt Hrk Hps Hw Hnd Hind.
  apply (walk_startingSet_fresh_inv
           (λ st, tidy st ∧ ∀ r, r ∈ reads st → r ∈ dom (visited st))
           fuel) with (l := l) (done := []) (st := {| visited := ∅; reads := [] |});
    [|done|simpl; set_solver|by apply independent_positions|].
  - intros s st st1 Hfresh [Htidy Hreads] Hwalk.
    pose proof (walks_dom _ _ _ Hwalk) as Hsub. simpl in Hsub.
    rewrite dom_set_empty_entry in Hsub.
    destruct (proj1 (walks_tidy rank Hnt Hrk Hps) _ _ _ Hwalk)
      as (Htidy1 & (more & Hr1 & Hmore) & _); simpl.
    + by apply tidy_set_empty_entry.
    + intros Hs. by apply Hfresh, Hreads.
    + intros r Hr. left. rewrite dom_set_empty_entry. set_solver.
    + split; [done|]. intros r. rewrite Hr1.
      intros [Hr|[->|Hr]%elem_of_cons]%elem_of_app; [|set_solver|auto].
      apply Hsub. apply elem_of_union_r. auto.
  - split; [|by intros ? ?%elem_of_nil]. split; [apply NoDup_nil_2|]. simpl.
    intros p e Hp. by rewrite lookup_empty in Hp.
Qed.

(** ** What a call throws *)

Lemma walk_parents_throws (w : string → WalkState → outcome WalkState) :
  (∀ p st e, w p st = Throw e → ∃ x, rtc step p x ∧ raised_at x e) →
  ∀ oid ps st e, walk_parents w oid ps st = Throw e →
    ∃ p x, p ∈ ps ∧ rtc step p x ∧ raised_at x e.
Proof.
  intros Hw oid ps. induction ps as [|p rest IH]; intros st e; [done|].
  rewrite walk_parents_cons.
  destruct (negb (hasOwnProperty (visited st) p)); simpl.
  - destruct (w p st) as [st1|e1|] eqn:Hp; simpl; [| |done].
    + intros (q & x & Hq & Hx)%IH. exists q, x. by split; [right|].
    + intros [= <-]. destruct (Hw _ _ _ Hp) as (x & Hx). exists p, x. by split; [left|].
  - intros (q & x & Hq & Hx)%IH. exists q, x. by split; [right|].
Qed.

(** An error thrown by a call was raised at a hash the call reaches. *)
Lemma walk_throws fuel : ∀ oid st e,
  walk fuel oid st = Throw e → ∃ x, rtc step oid x ∧ raised_at x e.
Proof.
  induction fuel as [|fuel IH]; intros oid st e; [done|].
  rewrite walk_S.
  destruct (readObject G newFS gitdir_ oid) as [e0|o] eqn:Hr; simpl.
  { intros [= <-]. exists oid. split; [done|]. by left. }
  case_bool_decide as Ht.
  - destruct (GitAnnotatedTag_object G (object o)) as [e0|target] eqn:Hd; simpl.
    + intros [= <-]. exists oid. split; [done|]. right. exists o. split; [done|].
      by left.
    + intros (x & Hx & Hraised)%IH. exists x. split; [|done].
      eapply rtc_l; [|done]. left. by exists o.
  - case_bool_decide as Hc.
    + intros [= <-]. exists oid. split; [done|]. right. exists o. split; [done|].
      right; left. done.
    + destruct (decide (oid ∈ shallows)) as [Hs|Hs].
      { by rewrite bool_decide_eq_true_2. }
      rewrite bool_decide_eq_false_2 by done. simpl.
      destruct (GitCommit_parent G (object o)) as [e0|ps] eqn:Hd; simpl.
      * intros [= <-]. exists oid. split; [done|]. right. exists o. split; [done|].
        right; right. done.
      * intros (p & x & Hp & Hx & Hraised)%(walk_parents_throws _ IH).
        exists x. split; [|done]. eapply rtc_l; [|done]. right. exists ps.
        split; [by exists o|done].
Qed.

Lemma walk_startingSet_throws fuel : ∀ l st e,
  walk_startingSet fuel l st = Throw e →
  ∃ s x, s ∈ l ∧ rtc step s x ∧ raised_at x e.
Proof.
  induction l as [|s rest IH]; intros st e; [done|].
  simpl. destruct (walk fuel s _) as [st1|e1|] eqn:Hw; simpl; [| |done].
  - intros (q & x & Hq & Hx)%IH. exists q, x. by split; [right|].
  - intros [= <-]. destruct (walk_throws _ _ _ _ Hw) as (x & Hx).
    exists s, x. by split; [left|].
Qed.

End DerivationFacts.

Section CallFacts.
Context {FsClient Payload : Type}.
Variable G : Collaborators FsClient Payload.
Variable newFS : FileSystem FsClient.
Variable gitdir_ : string.
Variable shallows : gset string.

Local Abbreviation walk := (walk G newFS gitdir_ shallows).
Local Abbreviation walk_startingSet := (walk_startingSet G newFS gitdir_ shallows).
Local Abbreviation is_commit := (is_commit G newFS gitdir_).
Local Abbreviation is_tag := (is_tag G newFS gitdir_).
Local Abbreviation parent_edge := (parent_edge G newFS gitdir_ shallows).
Local Abbreviation peels := (peels G newFS gitdir_).
Local Abbreviation step := (step G newFS gitdir_ shallows).
Local Abbreviation walks := (walks G newFS gitdir_ shallows).
Local Abbreviation walks_parents := (walks_parents G newFS gitdir_ shallows).
Local Abbreviation calls := (calls G newFS gitdir_ shallows).
Local Abbreviation run_calls := (run_calls G newFS gitdir_ shallows).
Local Abbreviation accepted := (accepted G newFS gitdir_).
Local Abbreviation independent := (independent G newFS gitdir_ shallows).

(** ** A throw goes up through every call *)

Lemma walk_parents_app (w : string → WalkState → outcome WalkState) oid l1 l2 st :
  walk_parents w oid (l1 ++ l2) st =
  st1 ← walk_parents w oid l1 st; walk_parents w oid l2 st1.
Proof.
  revert st. induction l1 as [|p l1 IH]; intros st; [done|].
  rewrite <- app_comm_cons, !walk_parents_cons.
  destruct (if negb _ then _ else _) as [st1| |]; simpl; auto.
Qed.

Lemma walk_S_commit fuel oid parents st :
  is_commit oid parents → oid ∉ shallows →
  walk (S fuel) oid st = walk_parents (walk fuel) oid parents (record_read oid st).
Proof.
  intros (o & Hr & Ht & Hd) Hs. rewrite walk_S, Hr. simpl.
  rewrite bool_decide_eq_false_2 by (rewrite Ht; done).
  rewrite bool_decide_eq_false_2 by (rewrite Ht; naive_solver).
  rewrite bool_decide_eq_false_2 by done. simpl. by rewrite Hd.
Qed.

(** What a call made inside a call throws, the call throws. *)
Lemma calls_throw fuel oid st fuel' h st' e :
  calls fuel oid st fuel' h st' →
  walk fuel' h st' = Throw e → walk fuel oid st = Throw e.
Proof.
  induction 1 as [|fuel oid st target fuel' h st' Htag _ IH
                  |fuel oid st ps before p after st1 fuel' h st' Hc Hs -> Hbefore Hp _ IH];
    intros Hthrow; [done| |].
  - rewrite (walk_S_tag _ _ _ _ _ _ _ _ Htag). auto.
  - rewrite (walk_S_commit _ _ _ _ Hc Hs), walk_parents_app, Hbefore.
    change (walk_parents (walk fuel) oid (p :: after) st1 = Throw e).
    rewrite walk_parents_cons.
    rewrite (proj2 (hasOwnProperty_not_dom _ _) Hp). simpl.
    by rewrite (IH Hthrow).
Qed.

Lemma run_calls_throw fuel startingSet fuel' h st' e :
  run_calls fuel startingSet fuel' h st' →
  walk fuel' h st' = Throw e →
  walk_startingSet fuel startingSet {| visited := ∅; reads := [] |} = Throw e.
Proof.
  intros (before & s & after & st1 & -> & Hbefore & Hcalls) Hthrow.
  rewrite walk_startingSet_app, Hbefore. simpl.
  by rewrite (calls_throw _ _ _ _ _ _ _ Hcalls Hthrow).
Qed.

(** ** A run that returns has accepted every object it reached *)

Lemma peels_rtc_step tags h x : peels tags h x → rtc step h x.
Proof.
  induction 1 as [|oid next tags target Htag _ IH]; [done|].
  eapply rtc_l; [by left|done].
Qed.

(** Every object a derivation reads is accepted, the target of a tag it
    reads is read by it too, and the parents of a commit it reads and
    expands are keys at its end. *)
Lemma walks_accepted :
  (∀ oid st st', walks oid st st' →
     ∃ more, reads st' = (reads st ++ oid :: more)%list ∧
       ∀ r, r ∈ oid :: more →
         accepted r ∧ (∀ t, is_tag r t → t ∈ oid :: more) ∧
         (∀ p, parent_edge r p → p ∈ dom (visited st'))) ∧
  (∀ oid ps st st', walks_parents oid ps st st' →
     (∀ p, p ∈ ps → p ∈ dom (visited st')) ∧
     ∃ more, reads st' = (reads st ++ more)%list ∧
       ∀ r, r ∈ more →
         accepted r ∧ (∀ t, is_tag r t → t ∈ more) ∧
         (∀ p, parent_edge r p → p ∈ dom (visited st'))).
Proof.
  apply walks_mutind.
  - intros oid target st st' Htag _ (more & Hreads & Hmore). simpl in Hreads.
    exists (target :: more). split; [by rewrite Hreads, <- app_assoc|].
    intros r [->|Hr]%elem_of_cons.
    + split; [left; by exists target|]. split.
      * intros t Ht. rewrite (is_tag_functional _ _ _ _ _ _ Ht Htag). set_solver.
      * intros p Hp. by destruct (is_tag_no_parent_edge _ _ _ _ _ _ _ Htag Hp).
    + destruct (Hmore r Hr) as (Hacc & Htags & Hpar). split; [done|].
      split; [|done]. intros t Ht. right. auto.
  - intros oid o st Hr Ht Hs. exists []. split; [done|].
    intros r ->%list_elem_of_singleton. split; [right; by exists o|]. split.
    + intros t Htag. by destruct (commit_type_not_tag _ _ _ _ _ _ Hr Ht Htag).
    + intros p (ps & _ & Hn & _). done.
  - intros oid ps st st' Hc Hs _ (Hps & more & Hreads & Hmore). simpl in Hreads.
    exists more. split; [by rewrite Hreads, <- app_assoc|].
    intros r [->|Hr]%elem_of_cons.
    + split. { right. destruct Hc as (o & Hr & Ht & _). by exists o. }
      split.
      * intros t Htag. by destruct (is_commit_not_tag _ _ _ _ _ _ Hc Htag).
      * intros p (ps' & Hc' & _ & Hp). apply Hps.
        by rewrite (is_commit_functional _ _ _ _ _ _ Hc Hc').
    + destruct (Hmore r Hr) as (Hacc & Htags & Hpar). split; [done|].
      split; [|done]. intros t Ht. right. auto.
  - intros oid st. split; [by intros ? ?%elem_of_nil|].
    exists []. split; [by rewrite app_nil_r|by intros ? ?%elem_of_nil].
  - intros oid p rest st st' Hp Hrest (Hps & more & Hreads & Hmore). simpl in *.
    apply walks_parents_dom in Hrest. simpl in Hrest. rewrite dom_add_child in Hrest.
    split; [intros q [->|Hq]%elem_of_cons; [set_solver|auto]|].
    by exists more.
  - intros oid p rest st st1 st' Hp Hw (more1 & Hreads1 & Hmore1) Hrest
      (Hps & more & Hreads & Hmore). simpl in *.
    apply walks_parents_dom in Hrest. simpl in Hrest. rewrite dom_add_child in Hrest.
    split; [intros q [->|Hq]%elem_of_cons; [set_solver|auto]|].
    exists (p :: more1 ++ more)%list.
    split; [by rewrite Hreads, Hreads1, <- !app_assoc|].
    intros r Hr. rewrite app_comm_cons in Hr. apply elem_of_app in Hr as [Hr|Hr].
    + destruct (Hmore1 r Hr) as (Hacc & Htags & Hpar). split; [done|]. split.
      * intros t Ht. rewrite app_comm_cons. apply elem_of_app. left. auto.
      * intros q Hq. apply Hrest. apply elem_of_union_r. auto.
    + destruct (Hmore r Hr) as (Hacc & Htags & Hpar). split; [done|].
      split; [|done]. intros t Ht. rewrite app_comm_cons. apply elem_of_app. right. auto.
Qed.

(** At the end of the start loop the reads hold the starting hashes and
    the keys, are closed under [step], and are all accepted. *)
Lemma walk_startingSet_accepted fuel : ∀ l st st',
  walk_startingSet fuel l st = Ok st' →
  (∀ k, k ∈ dom (visited st) → k ∈ reads st) →
  (∀ r, r ∈ reads st →
     accepted r ∧ (∀ t, is_tag r t → t ∈ reads st) ∧
     (∀ p, parent_edge r p → p ∈ dom (visited st))) →
  (∀ s, s ∈ l → s ∈ reads st') ∧
  (∀ k, k ∈ dom (visited st') → k ∈ reads st') ∧
  (∀ r, r ∈ reads st' →
     accepted r ∧ (∀ t, is_tag r t → t ∈ reads st') ∧
     (∀ p, parent_edge r p → p ∈ dom (visited st'))).
Proof.
  induction l as [|s rest IH]; intros st st'.
  - intros [= <-] Hk Hr. split; [by intros ? ?%elem_of_nil|done].
  - simpl. destruct (walk fuel s _) as [st1| |] eqn:Hw; simpl; try done.
    intros Hrest Hkeys Hreads. apply walk_walks in Hw.
    destruct (proj1 walks_accepted _ _ _ Hw) as (more1 & Hr1 & Hmore1). simpl in *.
    pose proof (proj1 (walks_new_keys_read G newFS gitdir_ shallows) _ _ _ Hw) as Hnew.
    pose proof (walks_dom _ _ _ _ _ _ _ Hw) as Hsub1.
    simpl in Hnew, Hsub1. rewrite dom_set_empty_entry in Hnew, Hsub1.
    destruct (IH _ _ Hrest) as (Hstart & Hkeys' & Hreads').
    { intros k Hk. destruct (decide (k = s)) as [->|Hne]; [rewrite Hr1; set_solver|].
      destruct (decide (k ∈ dom (visited st))) as [Hin|Hin].
      - rewrite Hr1. apply elem_of_app. left. auto.
      - apply Hnew; [done|set_solver]. }
    { intros r. rewrite Hr1. intros [Hr|Hr]%elem_of_app.
      - destruct (Hreads r Hr) as (Hacc & Htags & Hpar). split; [done|]. split.
        + intros t Ht. apply elem_of_app. left. auto.
        + intros p Hp. apply Hsub1. apply elem_of_union_r. auto.
      - destruct (Hmore1 r Hr) as (Hacc & Htags & Hpar). split; [done|].
        split; [|done]. intros t Ht. apply elem_of_app. right. auto. }
    split; [|done]. intros x [->|Hx]%elem_of_cons; [|auto].
    destruct (walk_startingSet_reads G newFS gitdir_ shallows _ _ _ _ Hrest)
      as (_ & more & -> & _).
    { intros k Hk. destruct (decide (k = s)) as [->|Hne]; [rewrite Hr1; set_solver|].
      destruct (decide (k ∈ dom (visited st))) as [Hin|Hin].
      - rewrite Hr1. apply elem_of_app. left. auto.
      - apply Hnew; [done|set_solver]. }
    rewrite Hr1. set_solver.
Qed.

(** A run that returns read, and accepted, everything a starting hash
    reaches. *)
Lemma walk_startingSet_reached_accepted fuel l st' s x :
  walk_startingSet fuel l {| visited := ∅; reads := [] |} = Ok st' →
  s ∈ l → rtc step s x → x ∈ reads st' ∧ accepted x.
Proof.
  intros Hw Hs Hreach.
  apply walk_startingSet_accepted in Hw as (Hstart & Hkeys & Hreads);
    [|simpl; set_solver|by intros ? ?%elem_of_nil].
  assert (x ∈ reads st') as Hx.
  { specialize (Hstart s Hs). clear Hs.
    induction Hreach as [|a b c Hab _ IH]; [done|]. apply IH.
    destruct (Hreads a Hstart) as (_ & Htags & Hpar).
    destruct Hab as [Ht|Hp]; [auto|]. apply Hkeys. auto. }
  split; [done|]. by apply Hreads.
Qed.

(** ** Reading each object once *)

(** Without tags and without cycles, a call on a hash that was not read
    yet reads nothing twice: its argument first, then only hashes that
    end up as keys.  Nothing is asked of the parent lists. *)
Lemma walks_reads_once (rank : string → nat) :
  (∀ oid target, ¬ is_tag oid target) →
  (∀ c p, parent_edge c p → (rank p < rank c)%nat) →
  (∀ oid st st', walks oid st st' →
     NoDup (reads st) → oid ∉ reads st →
     (∀ r, r ∈ reads st → r ∈ dom (visited st) ∨ (rank oid < rank r)%nat) →
     NoDup (reads st') ∧
     ∃ more, reads st' = (reads st ++ oid :: more)%list ∧
             ∀ r, r ∈ more → r ∈ dom (visited st')) ∧
  (∀ oid ps st st', walks_parents oid ps st st' →
     (∀ p, p ∈ ps → (rank p < rank oid)%nat) →
     NoDup (reads st) →
     (∀ r, r ∈ reads st → r ∈ dom (visited st) ∨ (rank oid ≤ rank r)%nat) →
     NoDup (reads st') ∧
     ∃ more, reads st' = (reads st ++ more)%list ∧
             ∀ r, r ∈ more → r ∈ dom (visited st')).
Proof.
  intros no_tags rank_parent. apply walks_mutind.
  - intros oid target st st' Htag. by destruct (no_tags _ _ Htag).
  - intros oid o st _ _ _ Hnd Hoid _. simpl. split.
    + apply NoDup_app. split; [done|]. split; [|apply NoDup_singleton].
      intros x Hx ->%list_elem_of_singleton. done.
    + exists []. split; [done|by intros ? ?%elem_of_nil].
  - intros oid ps st st' Hc Hs _ IH Hnd Hoid Hrank.
    destruct IH as (Hnd' & more & Hreads & Hmore).
    + intros p Hp. apply rank_parent. by exists ps.
    + simpl. apply NoDup_app. split; [done|]. split; [|apply NoDup_singleton].
      intros x Hx ->%list_elem_of_singleton. done.
    + simpl. intros r [Hr| ->%list_elem_of_singleton]%elem_of_app; [|right; lia].
      destruct (Hrank r Hr); [by left|right; lia].
    + split; [done|]. exists more. simpl in Hreads. by rewrite Hreads, <- app_assoc.
  - intros oid st _ Hnd _. split; [done|].
    exists []. split; [by rewrite app_nil_r|by intros ? ?%elem_of_nil].
  - intros oid p rest st st' Hp Hrest IH Hrk Hnd Hrank.
    destruct IH as (Hnd' & more & Hreads & Hmore).
    + intros q Hq. apply Hrk. by right.
    + done.
    + simpl. intros r Hr. rewrite dom_add_child.
      destruct (Hrank r Hr); [left; set_solver|by right].
    + split; [done|]. by exists more.
  - intros oid p rest st st1 st' Hp Hw IH1 Hrest IH Hrk Hnd Hrank.
    assert (rank p < rank oid)%nat as Hrkp by (apply Hrk; by left).
    destruct IH1 as (Hnd1 & more1 & Hreads1 & Hmore1).
    + done.
    + intros Hpr. destruct (Hrank p Hpr); [done|lia].
    + intros r Hr. destruct (Hrank r Hr); [by left|right; lia].
    + pose proof (walks_dom _ _ _ _ _ _ _ Hw) as Hsub1.
      pose proof (walks_parents_dom _ _ _ _ _ _ _ _ Hrest) as Hsub. simpl in Hsub.
      rewrite dom_add_child in Hsub.
      destruct IH as (Hnd' & more & Hreads & Hmore).
      * intros q Hq. apply Hrk. by right.
      * done.
      * simpl. intros r Hr. rewrite dom_add_child. rewrite Hreads1 in Hr.
        apply elem_of_app in Hr as [Hr|[->|Hr]%elem_of_cons].
        -- destruct (Hrank r Hr); [left; set_solver|by right].
        -- left; set_solver.
        -- left. apply elem_of_union_r. by apply Hmore1.
      * split; [done|]. exists (p :: more1 ++ more)%list. simpl in Hreads.
        split; [by rewrite Hreads, Hreads1, <- !app_assoc|].
        intros r [->|[Hr|Hr]%elem_of_app]%elem_of_cons; [set_solver| |auto].
        apply Hsub. apply elem_of_union_r. by apply Hmore1.
Qed.

Lemma walk_startingSet_reads_once (rank : string → nat) fuel l st' :
  (∀ oid target, ¬ is_tag oid target) →
  (∀ c p, parent_edge c p → (rank p < rank c)%nat) →
  walk_startingSet fuel l {| visited := ∅; reads := [] |} = Ok st' →
  NoDup l → independent l →
  NoDup (reads st') ∧ ∀ r, r ∈ reads st' → r ∈ dom (visited st').
Proof.
  intros Hnt Hrk Hw Hnd Hind.
  apply (walk_startingSet_fresh_inv G newFS gitdir_ shallows
           (λ st, NoDup (reads st) ∧ ∀ r, r ∈ reads st → r ∈ dom (visited st))
           fuel) with (l := l) (done := []) (st := {| visited := ∅; reads := [] |});
    [|done|simpl; set_solver|by apply independent_positions|].
  - intros s st st1 Hfresh [Hnd0 Hreads] Hwalk.
    pose proof (walks_dom _ _ _ _ _ _ _ Hwalk) as Hsub. simpl in Hsub.
    rewrite dom_set_empty_entry in Hsub.
    destruct (proj1 (walks_reads_once rank Hnt Hrk) _ _ _ Hwalk)
      as (Hnd1 & more & Hr1 & Hmore); simpl.
    + done.
    + intros Hs. by apply Hfresh, Hreads.
    + intros r Hr. left. rewrite dom_set_empty_entry. set_solver.
    + split; [done|]. intros r. rewrite Hr1.
      intros [Hr|[->|Hr]%elem_of_cons]%elem_of_app; [|set_solver|auto].
      apply Hsub. apply elem_of_union_r. auto.
  - split; [apply NoDup_nil_2|by intros ? ?%elem_of_nil].
Qed.

End CallFacts.

Section CoverageFacts.
Context {FsClient Payload : Type}.
Variable G : Collaborators FsClient Payload.

(** ** The starting set *)

Lemma Set_add_NoDup x l : NoDup l → NoDup (Set_add x l).
Proof.
  intros Hnd. unfold Set_add. case_bool_decide as Hx; [done|].
  apply NoDup_app. split; [done|]. split; [|apply NoDup_singleton].
  intros y Hy ->%list_elem_of_singleton. done.
Qed.

Lemma elem_of_Set_add y x l : y ∈ Set_add x l ↔ y = x ∨ y ∈ l.
Proof.
  unfold Set_add. case_bool_decide as Hx; [naive_solver|].
  rewrite elem_of_app, list_elem_of_singleton. naive_solver.
Qed.

Lemma resolve_start_Ok newFS gitdir_ : ∀ start acc l,
  resolve_start G newFS gitdir_ start acc = Ok l →
  (NoDup acc → NoDup l) ∧
  (∀ ref, ref ∈ start →
     ∃ oid, GitRefManager_resolve G newFS gitdir_ ref = inr oid ∧ oid ∈ l) ∧
  (∀ oid, oid ∈ l →
     oid ∈ acc ∨ ∃ ref, ref ∈ start ∧ GitRefManager_resolve G newFS gitdir_ ref = inr oid) ∧
  (∀ oid, oid ∈ acc → oid ∈ l).
Proof.
  induction start as [|ref rest IH]; intros acc l.
  - intros [= <-]. split; [done|]. split; [by intros ? ?%elem_of_nil|]. naive_solver.
  - simpl. destruct (GitRefManager_resolve G newFS gitdir_ ref) as [e|oid] eqn:Hr; [done|].
    simpl. intros (Hnd & Hall & Hfrom & Hacc)%IH. split; [|split; [|split]].
    + intros Hn. by apply Hnd, Set_add_NoDup.
    + intros r [->|Hr']%elem_of_cons; [|auto].
      exists oid. split; [done|]. apply Hacc, elem_of_Set_add. by left.
    + intros o Ho. destruct (Hfrom o Ho) as [[->|Hin]%elem_of_Set_add|(r & Hr' & Hres)].
      * right. exists ref. by split; [left|].
      * by left.
      * right. exists r. by split; [right|].
    + intros o Ho. apply Hacc, elem_of_Set_add. by right.
Qed.

Lemma resolve_start_Throw newFS gitdir_ ref e : ∀ start acc,
  ref ∈ start → GitRefManager_resolve G newFS gitdir_ ref = inl e →
  ∃ ref' e', ref' ∈ start ∧ GitRefManager_resolve G newFS gitdir_ ref' = inl e' ∧
             resolve_start G newFS gitdir_ start acc = Throw e'.
Proof.
  induction start as [|r rest IH]; intros acc Hin Hres; [by apply elem_of_nil in Hin|].
  simpl. destruct (GitRefManager_resolve G newFS gitdir_ r) as [e0|oid] eqn:Hr.
  - exists r, e0. by split; [left|].
  - apply elem_of_cons in Hin as [->|Hin]; [congruence|].
    destruct (IH (Set_add oid acc) Hin Hres) as (r' & e' & Hr' & Hres' & Hthrow).
    exists r', e'. by split; [right|].
Qed.

Lemma prepare_Ok_inv gitdir_ args newFS shallows startingSet :
  prepare G gitdir_ args = Ok (newFS, shallows, startingSet) →
  newFS = new_FileSystem (fs args) ∧
  ∃ start,
    listBranches G newFS (dir args) gitdir_ = inr start ∧
    GitShallowManager_read G newFS gitdir_ = inr shallows ∧
    resolve_start G newFS gitdir_ start [] = Ok startingSet.
Proof.
  unfold prepare.
  destruct (assertParameter G "fs" (fs args)); simpl; [done|].
  destruct (assertParameter G "gitdir" (Some gitdir_)); simpl; [done|].
  destruct (listBranches G _ _ _) as [|start] eqn:Hb; simpl; [done|].
  destruct (GitShallowManager_read G _ _) as [|sh] eqn:Hsh; simpl; [done|].
  destruct (resolve_start G _ _ start []) as [l| |] eqn:Hrs; simpl; try done.
  intros [= <- <- <-]. split; [done|]. by exists start.
Qed.

Lemma listCommits_run_Ok_inv fuel args st :
  listCommits_run G [] fuel args = Ok st →
  ∃ gitdir_ newFS shallows startingSet,
    gitdir_of G args = inr gitdir_ ∧
    prepare G gitdir_ args = Ok (newFS, shallows, startingSet) ∧
    walk_startingSet G newFS gitdir_ shallows fuel startingSet
      {| visited := ∅; reads := [] |} = Ok st.
Proof.
  unfold listCommits_run. intros H.
  destruct (gitdir_of G args) as [e|gitdir_] eqn:Hgd; [done|]. simpl in H.
  destruct (prepare G gitdir_ args) as [[[newFS shallows] startingSet]|e|] eqn:Hp.
  - rewrite (listCommits_try_prepared G _ _ _ _ _ _ _ Hp) in H.
    destruct (walk_startingSet _ _ _ _ _ _ _) as [st'|e|] eqn:Hw; simpl in H; try done.
    injection H as <-. by exists gitdir_, newFS, shallows, startingSet.
  - unfold listCommits_try in H. rewrite Hp in H. done.
  - unfold listCommits_try in H. rewrite Hp in H. done.
Qed.

Lemma listCommits_run_Ok_start_loop fuel gitdir_ args newFS shallows startingSet st :
  gitdir_of G args = inr gitdir_ →
  prepare G gitdir_ args = Ok (newFS, shallows, startingSet) →
  listCommits_run G [] fuel args = Ok st →
  walk_startingSet G newFS gitdir_ shallows fuel startingSet
    {| visited := ∅; reads := [] |} = Ok st.
Proof.
  intros Hgd Hp (? & ? & ? & ? & Hgd' & Hp' & Hw)%listCommits_run_Ok_inv.
  rewrite Hgd in Hgd'. injection Hgd' as <-.
  rewrite Hp in Hp'. by injection Hp' as <- <- <-.
Qed.

Lemma listCommits_run_prepared fuel gitdir_ args newFS shallows startingSet :
  gitdir_of G args = inr gitdir_ →
  prepare G gitdir_ args = Ok (newFS, shallows, startingSet) →
  listCommits_run G [] fuel args =
  try_catch
    (walk_startingSet G newFS gitdir_ shallows fuel startingSet
       {| visited := ∅; reads := [] |})
    rethrow_with_caller.
Proof.
  intros Hgd Hp. unfold listCommits_run. rewrite Hgd. simpl.
  by rewrite (listCommits_try_prepared G _ _ _ _ _ _ _ Hp).
Qed.

Lemma prepare_NoDup gitdir_ args newFS shallows startingSet :
  prepare G gitdir_ args = Ok (newFS, shallows, startingSet) → NoDup startingSet.
Proof.
  intros (_ & start & _ & _ & Hrs)%prepare_Ok_inv.
  apply resolve_start_Ok in Hrs as (Hnd & _). apply Hnd, NoDup_nil_2.
Qed.

(** ** Further properties of [listCommits] *)

(** X1.  The starting set is the set of the hashes the branches resolve
    to: it has no duplicate, every branch that [listBranches] names
    resolved to one of its members, and each member is what some branch
    resolved to. *)
Theorem starting_set_is_the_resolved_branches gitdir_ args newFS shallows startingSet :
  prepare G gitdir_ args = Ok (newFS, shallows, startingSet) →
  NoDup startingSet ∧
  ∃ start,
    listBranches G newFS (dir args) gitdir_ = inr start ∧
    (∀ ref, ref ∈ start →
       ∃ oid, GitRefManager_resolve G newFS gitdir_ ref = inr oid ∧
              oid ∈ startingSet) ∧
    (∀ oid, oid ∈ startingSet →
       ∃ ref, ref ∈ start ∧
              GitRefManager_resolve G newFS gitdir_ ref = inr oid).
Proof.
  intros Hp. split; [by eapply prepare_NoDup|].
  apply prepare_Ok_inv in Hp as (_ & start & Hb & _ & Hrs).
  apply resolve_start_Ok in Hrs as (_ & Hall & Hfrom & _).
  exists start. split; [done|]. split; [done|].
  intros oid Ho. destruct (Hfrom oid Ho) as [Hin|?]; [|done]. by apply elem_of_nil in Hin.
Qed.

(** X2.  A branch that does not resolve is fatal: when the parameters are
    there, the branches are listed and the shallow file is read, and some
    branch fails to resolve, [listCommits] throws the error of a branch
    that failed, with its [caller] set, before any object is read:
    whatever depth the walk would be given. *)
Theorem unresolved_branch_is_fatal gitdir_ args start shallows ref e u1 u2 :
  gitdir_of G args = inr gitdir_ →
  assertParameter G "fs" (fs args) = inr u1 →
  assertParameter G "gitdir" (Some gitdir_) = inr u2 →
  listBranches G (new_FileSystem (fs args)) (dir args) gitdir_ = inr start →
  GitShallowManager_read G (new_FileSystem (fs args)) gitdir_ = inr shallows →
  ref ∈ start →
  GitRefManager_resolve G (new_FileSystem (fs args)) gitdir_ ref = inl e →
  ∃ ref' e',
    ref' ∈ start ∧
    GitRefManager_resolve G (new_FileSystem (fs args)) gitdir_ ref' = inl e' ∧
    ∀ fuel, listCommits G fuel args =
            Throw {| kind := kind e'; caller := Some "git.listBranches" |}.
Proof.
  intros Hgd H1 H2 Hb Hsh Hin Hres.
  destruct (resolve_start_Throw _ _ _ _ start [] Hin Hres) as (ref' & e' & Hin' & Hres' & Hthrow).
  exists ref', e'. split; [done|]. split; [done|]. intros fuel.
  unfold listCommits, listCommits_run, listCommits_try, prepare.
  rewrite Hgd. simpl.
  rewrite H1, H2. simpl. rewrite Hb. simpl. rewrite Hsh. simpl. rewrite Hthrow. done.
Qed.

(** X3.  The keys of the returned map are exactly the hashes reached from
    a starting hash by going, any number of times, from a hash through
    the tags it peels to a commit outside the shallow boundary and on to
    one of that commit's parents. *)
Theorem keys_are_the_reachable_hashes gitdir_ args fuel newFS shallows startingSet v k :
  gitdir_of G args = inr gitdir_ →
  prepare G gitdir_ args = Ok (newFS, shallows, startingSet) →
  listCommits G fuel args = Ok v →
  k ∈ dom v ↔
  ∃ s, s ∈ startingSet ∧ rtc (out_edge G newFS gitdir_ shallows) s k.
Proof.
  intros Hgd Hp Hl. destruct (listCommits_Ok_start_loop G _ _ _ _ _ _ _ Hgd Hp Hl) as (st & Hw & ->).
  apply walk_startingSet_out_edges in Hw as (_ & Hstart & Hcl & Hnew);
    [|simpl; set_solver].
  split.
  - intros Hk. apply (Hnew k Hk). simpl. set_solver.
  - intros (s & Hs & Hreach). specialize (Hstart s Hs). clear Hs.
    induction Hreach as [|x y z Hxy _ IH]; [done|]. apply IH. by apply (Hcl x y).
Qed.

(** X4.  Every child the returned map lists is a real child: a commit
    outside the shallow boundary whose parent list names the key. *)
Theorem listed_children_are_children gitdir_ args fuel newFS shallows startingSet v p e c :
  gitdir_of G args = inr gitdir_ →
  prepare G gitdir_ args = Ok (newFS, shallows, startingSet) →
  listCommits G fuel args = Ok v →
  v !! p = Some e → c ∈ children e →
  parent_edge G newFS gitdir_ shallows c p.
Proof.
  intros Hgd Hp Hl Hlk Hc. destruct (listCommits_Ok_start_loop G _ _ _ _ _ _ _ Hgd Hp Hl) as (st & Hw & ->).
  apply walk_startingSet_children_sound in Hw; [by apply (Hw p e c)|].
  intros q e0 c0 Hq. simpl in Hq. by rewrite lookup_empty in Hq.
Qed.

(** X5.  When no starting hash is reached from another one, no child is
    lost: for every key, the commit it peels to is listed among the
    children of each parent it names. *)
Theorem independent_starts_record_every_child gitdir_
    args fuel newFS shallows startingSet v k tags c p :
  gitdir_of G args = inr gitdir_ →
  prepare G gitdir_ args = Ok (newFS, shallows, startingSet) →
  independent G newFS gitdir_ shallows startingSet →
  listCommits G fuel args = Ok v →
  k ∈ dom v →
  peels G newFS gitdir_ tags k c →
  parent_edge G newFS gitdir_ shallows c p →
  ∃ e, v !! p = Some e ∧ c ∈ children e.
Proof.
  intros Hgd Hp Hind Hl Hk Hpeel Hedge.
  destruct (listCommits_Ok_start_loop G _ _ _ _ _ _ _ Hgd Hp Hl) as (st & Hw & ->).
  apply (walk_startingSet_recorded _ _ _ _ _ _ _ Hw (prepare_NoDup _ _ _ _ _ Hp) Hind k Hk
           tags c p Hpeel Hedge).
Qed.

(** X6.  The walk reads nothing but what it reaches: every object read
    is reached from a starting hash by steps from a tag to its target or
    from a commit outside the shallow boundary to a parent; and every key
    of the result is among the objects read. *)
Theorem reads_are_reached_and_cover_the_keys gitdir_ args fuel newFS shallows startingSet st :
  gitdir_of G args = inr gitdir_ →
  prepare G gitdir_ args = Ok (newFS, shallows, startingSet) →
  listCommits_run G [] fuel args = Ok st →
  (∀ r, r ∈ reads st →
     ∃ s, s ∈ startingSet ∧ rtc (step G newFS gitdir_ shallows) s r) ∧
  (∀ k, k ∈ dom (visited st) → k ∈ reads st).
Proof.
  intros Hgd Hp Hrun. apply (listCommits_run_Ok_start_loop _ _ _ _ _ _ _ Hgd Hp) in Hrun as Hw.
  apply walk_startingSet_reads in Hw as (Hkeys & more & Hreads & Hmore);
    [|simpl; set_solver].
  split; [|done]. simpl in Hreads. rewrite Hreads. done.
Qed.

(** X7.  Once the starting set is resolved, whatever [listCommits] throws
    was raised at a hash the walk reaches from a starting hash: it is what
    a collaborator threw on reading or decoding that object, or the
    [ObjectTypeError] for that object, with the [caller] set.  The push of
    line 96 never throws. *)
Theorem thrown_error_was_raised_at_a_reached_hash gitdir_
    args fuel newFS shallows startingSet e' :
  gitdir_of G args = inr gitdir_ →
  prepare G gitdir_ args = Ok (newFS, shallows, startingSet) →
  listCommits G fuel args = Throw e' →
  ∃ s x e,
    s ∈ startingSet ∧
    rtc (step G newFS gitdir_ shallows) s x ∧
    raised_at G newFS gitdir_ shallows x e ∧
    e' = {| kind := kind e; caller := Some "git.listBranches" |}.
Proof.
  intros Hgd Hp. rewrite (listCommits_prepared G _ _ _ _ _ _ Hgd Hp).
  destruct (walk_startingSet _ _ _ _ _ _ _) as [st|e|] eqn:Hw; simpl; try done.
  intros [= <-]. apply walk_startingSet_throws in Hw as (s & x & Hs & Hx & Hraised).
  by exists s, x, e.
Qed.

(** X8.  On a store without cycles, where every tag ranks above its
    target and every commit outside the shallow boundary above its parents,
    [listCommits] returns a map or throws as soon as the walk may go
    deeper than the rank of every starting hash. *)
Theorem listCommits_returns_on_acyclic_store gitdir_
    (rank : string → nat) fuel args newFS shallows startingSet :
  gitdir_of G args = inr gitdir_ →
  prepare G gitdir_ args = Ok (newFS, shallows, startingSet) →
  (∀ oid target, is_tag G newFS gitdir_ oid target →
     (rank target < rank oid)%nat) →
  (∀ child parent, parent_edge G newFS gitdir_ shallows child parent →
     (rank parent < rank child)%nat) →
  (∀ s, s ∈ startingSet → (rank s < fuel)%nat) →
  (∃ v, listCommits G fuel args = Ok v) ∨ (∃ e, listCommits G fuel args = Throw e).
Proof.
  intros Hgd Hp Htag Hedge Hr.
  pose proof (listCommits_returns G gitdir_ rank fuel args _ _ _ Hgd Hp Htag Hedge Hr) as Hret.
  destruct (listCommits G fuel args) as [v|e|]; [left|right|done]; by eexists.
Qed.

(** X9.  One call of [walk] only adds: a record that is in [visited] when
    the call starts is still there when it returns, with the same children
    and possibly more after them, and the reads made before the call are
    the beginning of the reads after it. *)
Theorem walk_only_appends newFS gitdir_ shallows fuel oid st st' :
  walk G newFS gitdir_ shallows fuel oid st = Ok st' →
  (∀ k e, visited st !! k = Some e →
     ∃ e', visited st' !! k = Some e' ∧ children e `prefix_of` children e') ∧
  reads st `prefix_of` reads st'.
Proof.
  intros Hw%walk_walks. split.
  - apply (proj1 (walks_grows G newFS gitdir_ shallows) _ _ _ Hw).
  - destruct (proj1 (walks_reads G newFS gitdir_ shallows) _ _ _ Hw) as (more & -> & _).
    by apply prefix_app_r.
Qed.

(** X10.  On a store without tags and without cycles, when no starting
    hash is reached from another one, each object is read at most once,
    and the objects read are exactly the keys of the result: every key is
    expanded exactly once. *)
Theorem each_key_is_read_exactly_once gitdir_
    (rank : string → nat) args fuel newFS shallows startingSet st :
  gitdir_of G args = inr gitdir_ →
  prepare G gitdir_ args = Ok (newFS, shallows, startingSet) →
  (∀ oid target, ¬ is_tag G newFS gitdir_ oid target) →
  (∀ c p, parent_edge G newFS gitdir_ shallows c p → (rank p < rank c)%nat) →
  independent G newFS gitdir_ shallows startingSet →
  listCommits_run G [] fuel args = Ok st →
  NoDup (reads st) ∧ ∀ r, r ∈ reads st ↔ r ∈ dom (visited st).
Proof.
  intros Hgd Hp Hnt Hrk Hind Hrun.
  apply (listCommits_run_Ok_start_loop _ _ _ _ _ _ _ Hgd Hp) in Hrun as Hw.
  destruct (walk_startingSet_reads_once _ _ _ _ rank _ _ _ Hnt Hrk Hw
              (prepare_NoDup _ _ _ _ _ Hp) Hind) as [Hnd Hsub].
  apply walk_startingSet_reads in Hw as (Hkeys & _); [|simpl; set_solver].
  split; [done|]. intros r. split; auto.
Qed.

(** X11.  On a store without tags and without cycles whose commits name
    each parent once, when no starting hash is reached from another one,
    the result is the reverse adjacency map of what was reached: under
    each key the children are, without repetition, exactly the keys that
    are commits outside the shallow boundary naming it as a parent. *)
Theorem result_is_the_reverse_adjacency_map gitdir_
    (rank : string → nat) args fuel newFS shallows startingSet v p e :
  gitdir_of G args = inr gitdir_ →
  prepare G gitdir_ args = Ok (newFS, shallows, startingSet) →
  (∀ oid target, ¬ is_tag G newFS gitdir_ oid target) →
  (∀ c p, parent_edge G newFS gitdir_ shallows c p → (rank p < rank c)%nat) →
  (∀ c ps, is_commit G newFS gitdir_ c ps → NoDup ps) →
  independent G newFS gitdir_ shallows startingSet →
  listCommits G fuel args = Ok v →
  v !! p = Some e →
  NoDup (children e) ∧
  ∀ c, c ∈ children e ↔
       c ∈ dom v ∧ parent_edge G newFS gitdir_ shallows c p.
Proof.
  intros Hgd Hp Hnt Hrk Hps Hind Hl Hlk.
  destruct (listCommits_Ok_start_loop G _ _ _ _ _ _ _ Hgd Hp Hl) as (st & Hw & ->).
  pose proof (prepare_NoDup _ _ _ _ _ Hp) as Hnd.
  destruct (walk_startingSet_tidy _ _ _ _ rank _ _ _ Hnt Hrk Hps Hw Hnd Hind)
    as [[_ Hch] Hsub].
  destruct (Hch p e Hlk) as [Hndc Hread]. split; [done|].
  intros c. split.
  - intros Hc. split; [auto|].
    apply walk_startingSet_children_sound in Hw; [by apply (Hw p e c)|].
    intros q e0 c0 Hq. simpl in Hq. by rewrite lookup_empty in Hq.
  - intros [Hc Hedge].
    destruct (walk_startingSet_recorded _ _ _ _ _ _ _ Hw Hnd Hind c Hc [] c p
                (peels_done _ _ _ c) Hedge) as (e' & He' & Hin).
    rewrite Hlk in He'. by injection He' as <-.
Qed.

(** C7 (amended).  Let [h] peel, through the tags [tags], to a hash [X]
    whose object is neither a tag nor a commit.  Expanding [h], in any
    state and wherever it happens, throws the [ObjectTypeError] that names
    [X] (which is [h] only when [h] is not a tag), the kind found and the
    kind [commit].  When the run makes the call [walk(h)], for a starting
    hash or for a parent however deep, that error ends the whole function,
    with its [caller] set.  And when [h] is reached from a starting hash
    at all, no run returns a map. *)
Theorem non_commit_aborts_walk gitdir_ args newFS shallows startingSet tags h X o :
  gitdir_of G args = inr gitdir_ →
  prepare G gitdir_ args = Ok (newFS, shallows, startingSet) →
  peels G newFS gitdir_ tags h X →
  readObject G newFS gitdir_ X = inr o →
  type o ≠ "tag" → type o ≠ "commit" →
  (∀ fuel st, (length tags < fuel)%nat →
     walk G newFS gitdir_ shallows fuel h st =
     Throw (new_ObjectTypeError X (type o) "commit")) ∧
  (∀ fuel fuel_h st_h,
     run_calls G newFS gitdir_ shallows fuel startingSet fuel_h h st_h →
     (length tags < fuel_h)%nat →
     listCommits G fuel args =
     Throw {| kind := ObjectTypeError X (type o) "commit";
              caller := Some "git.listBranches" |}) ∧
  (∀ s, s ∈ startingSet → rtc (step G newFS gitdir_ shallows) s h →
     ∀ fuel v, listCommits G fuel args ≠ Ok v).
Proof.
  intros Hgd Hp Hpeel Hr Ht Hc.
  assert (∀ fuel st, (length tags < fuel)%nat →
            walk G newFS gitdir_ shallows fuel h st =
            Throw (new_ObjectTypeError X (type o) "commit")) as Hthrow.
  { intros fuel st Hfuel.
    replace fuel with (length tags + S (fuel - S (length tags)))%nat by lia.
    rewrite (walk_peels _ _ _ _ _ _ _ Hpeel). by apply walk_not_commit. }
  split; [done|]. split.
  - intros fuel fuel_h st_h Hcalls Hfuel.
    rewrite (listCommits_prepared _ _ _ _ _ _ _ Hgd Hp).
    by rewrite (run_calls_throw _ _ _ _ _ _ _ _ _ _ Hcalls (Hthrow fuel_h st_h Hfuel)).
  - intros s Hs Hreach fuel v Hl.
    destruct (listCommits_Ok_start_loop _ _ _ _ _ _ _ _ Hgd Hp Hl) as (st & Hw & _).
    assert (rtc (step G newFS gitdir_ shallows) s X) as HX.
    { etrans; [done|]. by eapply peels_rtc_step. }
    destruct (walk_startingSet_reached_accepted _ _ _ _ _ _ _ _ _ Hw Hs HX)
      as (_ & [(t & o' & Hr' & Ht' & _)|(o' & Hr' & Hc')]); congruence.
Qed.

End CoverageFacts.

Section TwoStores.
Context {FsClient Payload : Type}.
Variables G1 G2 : Collaborators FsClient Payload.
Variable newFS : FileSystem FsClient.
Variable gitdir_ : string.
Variable shallows : gset string.

Lemma same_store_subset touched touched' :
  (∀ x, x ∈ touched' → x ∈ touched) →
  same_store G1 G2 newFS gitdir_ touched → same_store G1 G2 newFS gitdir_ touched'.
Proof. intros Hsub Hsame oid Hoid. apply Hsame. auto. Qed.

Lemma walk_reads_prefix fuel oid st st' :
  walk G1 newFS gitdir_ shallows fuel oid st = Ok st' →
  ∃ more, reads st' = (reads st ++ oid :: more)%list.
Proof.
  intros Hw%walk_walks.
  destruct (proj1 (walks_reads G1 newFS gitdir_ shallows) _ _ _ Hw) as (more & ? & _).
  by exists more.
Qed.

Lemma walk_parents_reads_prefix fuel oid ps st st' :
  walk_parents (walk G1 newFS gitdir_ shallows fuel) oid ps st = Ok st' →
  ∃ more, reads st' = (reads st ++ more)%list.
Proof.
  intros Hw. apply (walk_parents_walks G1 newFS gitdir_ shallows) in Hw;
    [|intros; by eapply walk_walks].
  destruct (proj2 (walks_reads G1 newFS gitdir_ shallows) _ _ _ _ Hw) as (more & ? & _).
  by exists more.
Qed.

(** A call that returns on the first store returns the same state on a
    store that answers alike on what the call read. *)
Lemma walk_same_store fuel : ∀ oid st st',
  walk G1 newFS gitdir_ shallows fuel oid st = Ok st' →
  same_store G1 G2 newFS gitdir_ (reads st') →
  walk G2 newFS gitdir_ shallows fuel oid st = Ok st'.
Proof.
  induction fuel as [|fuel IH]; intros oid st st' Hw Hsame; [done|].
  destruct (walk_reads_prefix _ _ _ _ Hw) as (more & Hreads).
  destruct (Hsame oid) as [Hread Hdec]; [rewrite Hreads; set_solver|].
  rewrite walk_S in Hw. rewrite walk_S, <- Hread.
  destruct (readObject G1 newFS gitdir_ oid) as [e|o] eqn:Hr; [done|].
  destruct (Hdec o eq_refl) as [Htag Hpar]. simpl in *.
  case_bool_decide as Ht.
  - rewrite <- Htag.
    destruct (GitAnnotatedTag_object G1 (object o)) as [e|target]; [done|].
    simpl in *. by apply IH.
  - case_bool_decide as Hc; [done|].
    destruct (negb (bool_decide (oid ∈ shallows))); [|done].
    rewrite <- Hpar.
    destruct (GitCommit_parent G1 (object o)) as [e|ps]; [done|]. simpl in *.
    clear Hreads Hr Hdec Htag Hpar Hread. revert Hw. generalize (record_read oid st).
    induction ps as [|p rest IHps]; intros st0 Hw; [done|].
    rewrite walk_parents_cons in Hw. rewrite walk_parents_cons.
    destruct (negb (hasOwnProperty (visited st0) p)); simpl in *; [|by apply IHps].
    destruct (walk G1 newFS gitdir_ shallows fuel p st0) as [st1| |] eqn:Hp;
      simpl in Hw; try done.
    destruct (walk_parents_reads_prefix _ _ _ _ _ Hw) as (more' & Hreads').
    simpl in Hreads'.
    rewrite (IH _ _ _ Hp); [simpl; by apply IHps|].
    eapply same_store_subset; [|done]. intros x Hx. rewrite Hreads'. set_solver.
Qed.

Lemma walk_startingSet_reads_prefix fuel : ∀ l st st',
  walk_startingSet G1 newFS gitdir_ shallows fuel l st = Ok st' →
  ∃ more, reads st' = (reads st ++ more)%list.
Proof.
  induction l as [|s rest IH]; intros st st'.
  - intros [= <-]. exists []. by rewrite app_nil_r.
  - simpl. destruct (walk _ _ _ _ fuel s _) as [st1| |] eqn:Hw; simpl; try done.
    intros (more & ->)%IH. apply walk_reads_prefix in Hw as (more1 & ->). simpl.
    exists (s :: more1 ++ more)%list. by rewrite <- app_assoc.
Qed.

Lemma walk_startingSet_same_store fuel : ∀ l st st',
  walk_startingSet G1 newFS gitdir_ shallows fuel l st = Ok st' →
  same_store G1 G2 newFS gitdir_ (reads st') →
  walk_startingSet G2 newFS gitdir_ shallows fuel l st = Ok st'.
Proof.
  induction l as [|s rest IH]; intros st st'; [done|].
  simpl. destruct (walk G1 _ _ _ fuel s _) as [st1| |] eqn:Hw; simpl; try done.
  intros Hrest Hsame.
  destruct (walk_startingSet_reads_prefix _ _ _ _ Hrest) as (more & Hreads).
  rewrite (walk_same_store _ _ _ _ Hw); [simpl; by apply IH|].
  eapply same_store_subset; [|done]. intros x Hx. rewrite Hreads. set_solver.
Qed.

End TwoStores.

Section Determinism.
Context {FsClient Payload : Type}.
Variables G1 G2 : Collaborators FsClient Payload.

(** C8.  Two executions, the second on the store as the first one left
    it: when the arguments give the same [gitdir], the same shallow set
    and the same starting set, and the store answers the second execution
    as it answered the first on every object the first one read, the
    second execution, allowed to go at least as deep, makes the same reads
    and returns the same map; and whatever depth it is allowed, the map it
    returns, if any, has the same keys with the same [children] in the
    same order. *)
Theorem listCommits_deterministic gitdir_ args newFS shallows startingSet (fuel1 : nat) st1 :
  gitdir_of G1 args = inr gitdir_ →
  gitdir_of G2 args = inr gitdir_ →
  prepare G1 gitdir_ args = Ok (newFS, shallows, startingSet) →
  prepare G2 gitdir_ args = Ok (newFS, shallows, startingSet) →
  listCommits_run G1 [] fuel1 args = Ok st1 →
  same_store G1 G2 newFS gitdir_ (reads st1) →
  (∀ fuel2 : nat, (fuel1 ≤ fuel2)%nat → listCommits_run G2 [] fuel2 args = Ok st1) ∧
  (∀ (fuel2 : nat) v2, listCommits G2 fuel2 args = Ok v2 →
     v2 = visited st1 ∧ dom v2 = dom (visited st1) ∧
     ∀ k, children <$> v2 !! k = children <$> visited st1 !! k).
Proof.
  intros Hgd1 Hgd2 Hp1 Hp2 Hrun Hsame.
  apply (listCommits_run_Ok_start_loop _ _ _ _ _ _ _ _ Hgd1 Hp1) in Hrun as Hw1.
  assert (∀ fuel2 : nat, (fuel1 ≤ fuel2)%nat →
            walk_startingSet G2 newFS gitdir_ shallows fuel2 startingSet
              {| visited := ∅; reads := [] |} = Ok st1) as Hw2.
  { intros fuel2 Hle. eapply walk_startingSet_fuel_le; [done| |done].
    by apply (walk_startingSet_same_store G1 G2). }
  split.
  - intros fuel2 Hle.
    rewrite (listCommits_run_prepared _ _ _ _ _ _ _ Hgd2 Hp2), (Hw2 fuel2 Hle). done.
  - intros fuel2 v2 Hl. assert (v2 = visited st1) as ->; [|done].
    destruct (listCommits_Ok_start_loop _ _ _ _ _ _ _ _ Hgd2 Hp2 Hl) as (st2 & Hw & ->).
    apply (walk_startingSet_fuel_le _ _ _ _ _ (fuel1 `max` fuel2)) in Hw; [|lia|done].
    rewrite (Hw2 (fuel1 `max` fuel2)) in Hw by lia. by injection Hw as <-.
Qed.

End Determinism.

(** ** The further properties on the small repositories *)

Lemma repo_is_commit_inv branches shallow objects newFS gitdir_ c ps :
  is_commit (repository branches shallow objects) newFS gitdir_ c ps →
  lookup_assoc c objects = Some ("commit", ps).
Proof.
  intros (o & Hr & Ht & Hd). simpl in *.
  destruct (lookup_assoc c objects) as [[ty payload]|]; [|done].
  injection Hr as <-. simpl in *. by simplify_eq.
Qed.

Lemma repo_is_tag_inv branches shallow objects newFS gitdir_ c target :
  is_tag (repository branches shallow objects) newFS gitdir_ c target →
  ∃ payload, lookup_assoc c objects = Some ("tag", payload).
Proof.
  intros (o & Hr & Ht & Hd). simpl in *.
  destruct (lookup_assoc c objects) as [[ty payload]|]; [|done].
  injection Hr as <-. simpl in *. subst. by exists payload.
Qed.

Lemma repo_parent_edge_inv branches shallow objects newFS gitdir_ shallows c p :
  parent_edge (repository branches shallow objects) newFS gitdir_ shallows c p →
  ∃ ps, lookup_assoc c objects = Some ("commit", ps) ∧ p ∈ ps.
Proof.
  intros (ps & Hc%repo_is_commit_inv & _ & Hp). by exists ps.
Qed.

Ltac lookup_cases H :=
  unfold lookup_assoc in H; simpl in H;
  repeat (case_bool_decide; simpl in H); simplify_eq.

Lemma repo_merge_no_tags newFS gitdir_ oid target :
  ¬ is_tag repo_merge newFS gitdir_ oid target.
Proof. intros [payload H]%repo_is_tag_inv. lookup_cases H. Qed.

Lemma repo_merge_rank newFS gitdir_ shallows c p :
  parent_edge repo_merge newFS gitdir_ shallows c p →
  (rank_small p < rank_small c)%nat.
Proof.
  intros (ps & H & Hp)%repo_parent_edge_inv. lookup_cases H; set_unfold;
    destruct_or?; simplify_eq; vm_compute; lia.
Qed.

Lemma repo_merge_parents_NoDup newFS gitdir_ c ps :
  is_commit repo_merge newFS gitdir_ c ps → NoDup ps.
Proof.
  intros H%repo_is_commit_inv. lookup_cases H;
    first [apply NoDup_nil_2 | apply NoDup_singleton].
Qed.

Lemma repo_merge_out_edge_rank newFS gitdir_ shallows a b :
  out_edge repo_merge newFS gitdir_ shallows a b →
  (rank_small b < rank_small a)%nat.
Proof.
  intros H. apply (repo_merge_rank newFS gitdir_ shallows).
  apply out_edge_not_tag; [|done]. intros t. apply repo_merge_no_tags.
Qed.

Lemma repo_merge_independent newFS gitdir_ shallows :
  independent repo_merge newFS gitdir_ shallows ["C"; "D"].
Proof.
  apply (independent_same_rank _ _ _ _ rank_small).
  - apply repo_merge_out_edge_rank.
  - intros s s' Hs Hs'. set_unfold. destruct_or?; simplify_eq; done.
Qed.

(** The starting set of [repo_merge]. *)
Lemma starting_set_witness :
  NoDup ["C"; "D"] ∧
  ∃ start,
    listBranches repo_merge (new_FileSystem (Some tt)) (dir args_tutorial)
      "/tutorial/.git" = inr start ∧
    (∀ ref, ref ∈ start →
       ∃ oid, GitRefManager_resolve repo_merge (new_FileSystem (Some tt))
                "/tutorial/.git" ref = inr oid ∧
              oid ∈ ["C"; "D"]) ∧
    (∀ oid, oid ∈ ["C"; "D"] →
       ∃ ref, ref ∈ start ∧
              GitRefManager_resolve repo_merge (new_FileSystem (Some tt))
                "/tutorial/.git" ref = inr oid).
Proof.
  apply (starting_set_is_the_resolved_branches repo_merge "/tutorial/.git" args_tutorial
           (new_FileSystem (Some tt)) (list_to_set [])).
  reflexivity.
Defined.

(** The branch [gone] of [repo_dangling] does not resolve. *)
Lemma unresolved_branch_witness :
  ∃ ref' e',
    ref' ∈ ["c"; "gone"; "d"] ∧
    GitRefManager_resolve repo_dangling (new_FileSystem (fs args_tutorial))
      "/tutorial/.git" ref' = inl e' ∧
    ∀ fuel, listCommits repo_dangling fuel args_tutorial =
            Throw {| kind := kind e'; caller := Some "git.listBranches" |}.
Proof.
  apply (unresolved_branch_is_fatal repo_dangling "/tutorial/.git" args_tutorial
           ["c"; "gone"; "d"] (list_to_set []) "gone" (not_found "gone") tt tt).
  - reflexivity.
  - reflexivity.
  - reflexivity.
  - reflexivity.
  - reflexivity.
  - apply list_elem_of_further, list_elem_of_here.
  - reflexivity.
Defined.

(** The root [A] of [repo_merge] is a key, and is reached. *)
Lemma keys_witness :
  "A" ∈ dom visited_merge ↔
  ∃ s, s ∈ ["C"; "D"] ∧
       rtc (out_edge repo_merge (new_FileSystem (Some tt))
              "/tutorial/.git" (list_to_set [])) s "A".
Proof.
  apply (keys_are_the_reachable_hashes repo_merge "/tutorial/.git" args_tutorial 3
           (new_FileSystem (Some tt)) (list_to_set []) ["C"; "D"] visited_merge "A").
  - reflexivity.
  - reflexivity.
  - vm_compute. reflexivity.
Defined.

(** In [repo_merge] the child [C] listed under [B] names [B]. *)
Lemma listed_children_witness :
  parent_edge repo_merge (new_FileSystem (Some tt))
    "/tutorial/.git" (list_to_set []) "C" "B".
Proof.
  apply (listed_children_are_children repo_merge "/tutorial/.git" args_tutorial 3
           (new_FileSystem (Some tt)) (list_to_set []) ["C"; "D"] visited_merge
           "B" {| children := ["C"; "D"] |} "C").
  - reflexivity.
  - reflexivity.
  - vm_compute. reflexivity.
  - vm_compute. reflexivity.
  - apply list_elem_of_here.
Defined.

(** In [repo_merge] the key [D] is listed under its parent [B]. *)
Lemma every_child_witness :
  ∃ e, visited_merge !! "B" = Some e ∧ "D" ∈ children e.
Proof.
  apply (independent_starts_record_every_child repo_merge "/tutorial/.git" args_tutorial 3
           (new_FileSystem (Some tt)) (list_to_set []) ["C"; "D"] visited_merge
           "D" [] "D" "B").
  - reflexivity.
  - reflexivity.
  - apply repo_merge_independent.
  - vm_compute. reflexivity.
  - apply elem_of_dom. exists {| children := [] |}. vm_compute. reflexivity.
  - apply peels_done.
  - eapply (repo_edge _ []); [reflexivity|apply not_elem_of_nil|apply list_elem_of_here].
Defined.

(** The reads of the run on [repo_merge]. *)
Lemma reads_witness :
  (∀ r, r ∈ ["C"; "B"; "A"; "D"] →
     ∃ s, s ∈ ["C"; "D"] ∧
          rtc (step repo_merge (new_FileSystem (Some tt))
                 "/tutorial/.git" (list_to_set [])) s r) ∧
  (∀ k, k ∈ dom visited_merge → k ∈ ["C"; "B"; "A"; "D"]).
Proof.
  apply (reads_are_reached_and_cover_the_keys repo_merge "/tutorial/.git" args_tutorial 3
           (new_FileSystem (Some tt)) (list_to_set []) ["C"; "D"]
           {| visited := visited_merge; reads := ["C"; "B"; "A"; "D"] |}).
  - reflexivity.
  - reflexivity.
  - vm_compute. reflexivity.
Defined.

(** The error thrown on [repo_tag_of_tree] was raised at the tree [X]. *)
Lemma raised_witness :
  ∃ s x e,
    s ∈ ["T"] ∧
    rtc (step repo_tag_of_tree (new_FileSystem (Some tt))
           "/tutorial/.git" (list_to_set [])) s x ∧
    raised_at repo_tag_of_tree (new_FileSystem (Some tt))
      "/tutorial/.git" (list_to_set []) x e ∧
    {| kind := ObjectTypeError "X" "tree" "commit";
       caller := Some "git.listBranches" |}
    = {| kind := kind e; caller := Some "git.listBranches" |}.
Proof.
  apply (thrown_error_was_raised_at_a_reached_hash repo_tag_of_tree "/tutorial/.git" args_tutorial 2
           (new_FileSystem (Some tt)) (list_to_set []) ["T"]).
  - reflexivity.
  - reflexivity.
  - vm_compute. reflexivity.
Defined.

(** The run on [repo_merge] returns. *)
Lemma returns_witness :
  (∃ v, listCommits repo_merge 3 args_tutorial = Ok v) ∨
  (∃ e, listCommits repo_merge 3 args_tutorial = Throw e).
Proof.
  apply (listCommits_returns_on_acyclic_store repo_merge "/tutorial/.git" rank_small 3 args_tutorial
           (new_FileSystem (Some tt)) (list_to_set []) ["C"; "D"]).
  - reflexivity.
  - reflexivity.
  - intros oid target H. by destruct (repo_merge_no_tags _ _ _ _ H).
  - apply repo_merge_rank.
  - intros s Hs. set_unfold. destruct_or?; simplify_eq; vm_compute; lia.
Defined.

(** The walk of [D] in [repo_merge] from a state that lists [C] under
    [B] keeps [C] there. *)
Lemma only_appends_witness :
  (∀ k e,
     visited {| visited := {[ "B" := {| children := ["C"] |} ]}; reads := ["C"] |} !! k
     = Some e →
     ∃ e', visited {| visited := {[ "B" := {| children := ["C"; "D"] |} ]};
                      reads := ["C"; "D"] |} !! k = Some e' ∧
           children e `prefix_of` children e') ∧
  reads {| visited := {[ "B" := {| children := ["C"] |} ]}; reads := ["C"] |}
    `prefix_of`
  reads {| visited := {[ "B" := {| children := ["C"; "D"] |} ]}; reads := ["C"; "D"] |}.
Proof.
  apply (walk_only_appends repo_merge (new_FileSystem (Some tt)) "/tutorial/.git"
           (list_to_set []) 3 "D").
  vm_compute. reflexivity.
Defined.

(** The run on [repo_merge] reads each key once. *)
Lemma read_once_witness :
  NoDup ["C"; "B"; "A"; "D"] ∧
  ∀ r, r ∈ ["C"; "B"; "A"; "D"] ↔ r ∈ dom visited_merge.
Proof.
  apply (each_key_is_read_exactly_once repo_merge "/tutorial/.git" rank_small args_tutorial 3
           (new_FileSystem (Some tt)) (list_to_set []) ["C"; "D"]
           {| visited := visited_merge; reads := ["C"; "B"; "A"; "D"] |}).
  - reflexivity.
  - reflexivity.
  - apply repo_merge_no_tags.
  - apply repo_merge_rank.
  - apply repo_merge_independent.
  - vm_compute. reflexivity.
Defined.

(** Under [B] the result on [repo_merge] lists its two children once. *)
Lemma reverse_adjacency_witness :
  NoDup ["C"; "D"] ∧
  ∀ c, c ∈ ["C"; "D"] ↔
       c ∈ dom visited_merge ∧
       parent_edge repo_merge (new_FileSystem (Some tt))
         "/tutorial/.git" (list_to_set []) c "B".
Proof.
  apply (result_is_the_reverse_adjacency_map repo_merge "/tutorial/.git" rank_small args_tutorial 3
           (new_FileSystem (Some tt)) (list_to_set []) ["C"; "D"] visited_merge
           "B" {| children := ["C"; "D"] |}).
  - reflexivity.
  - reflexivity.
  - apply repo_merge_no_tags.
  - apply repo_merge_rank.
  - apply repo_merge_parents_NoDup.
  - apply repo_merge_independent.
  - vm_compute. reflexivity.
  - vm_compute. reflexivity.
Defined.

(** In [repo_tree_parent] the tree [X] is reached as the parent of the
    starting commit [C]: the call made for it throws, the run throws the
    same error, and no run returns a map. *)
Lemma non_commit_witness :
  walk repo_tree_parent (new_FileSystem (Some tt)) "/tutorial/.git" (list_to_set []) 1 "X"
    (record_read "C" {| visited := {[ "C" := {| children := [] |} ]}; reads := [] |})
    = Throw (new_ObjectTypeError "X" "tree" "commit") ∧
  listCommits repo_tree_parent 2 args_tutorial =
    Throw {| kind := ObjectTypeError "X" "tree" "commit";
             caller := Some "git.listBranches" |} ∧
  (∀ fuel v, listCommits repo_tree_parent fuel args_tutorial ≠ Ok v).
Proof.
  destruct (non_commit_aborts_walk repo_tree_parent "/tutorial/.git" args_tutorial
              (new_FileSystem (Some tt)) (list_to_set []) ["C"] [] "X" "X"
              (mkGitObject "tree" []))
    as (Hwalk & Hrun & Hnone);
    [reflexivity|reflexivity|apply peels_done|reflexivity|discriminate|discriminate|].
  assert (parent_edge repo_tree_parent (new_FileSystem (Some tt)) "/tutorial/.git"
            (list_to_set []) "C" "X") as Hedge.
  { eapply (repo_edge _ []); [reflexivity|apply not_elem_of_nil|apply list_elem_of_here]. }
  split; [apply Hwalk; simpl; lia|]. split.
  - apply (Hrun 2 1 (record_read "C"
             {| visited := {[ "C" := {| children := [] |} ]}; reads := [] |}));
      [|simpl; lia].
    exists [], "C", [], {| visited := ∅; reads := [] |}.
    split; [reflexivity|]. split; [reflexivity|].
    pose proof Hedge as (ps & Hc & Hs & _).
    eapply (calls_parent _ _ _ _ 1 "C" _ ["X"] [] "X" []);
      [by exists (mkGitObject "commit" ["X"])|exact Hs|reflexivity
      |reflexivity| |apply calls_self].
    simpl. rewrite dom_set_empty_entry, dom_empty_L.
    intros [Hx%elem_of_singleton|Hx%elem_of_empty]%elem_of_union; [discriminate|done].
  - apply (Hnone "C"); [apply list_elem_of_here|].
    eapply rtc_l; [right; exact Hedge|apply rtc_refl].
Defined.

(** [repo_merge] and, later, [repo_merge_later]: the second execution
    returns what the first returned. *)
Lemma deterministic_witness :
  (∀ fuel2 : nat, (3 ≤ fuel2)%nat →
     listCommits_run repo_merge_later [] fuel2 args_tutorial =
     Ok {| visited := visited_merge; reads := ["C"; "B"; "A"; "D"] |}) ∧
  (∀ (fuel2 : nat) v2, listCommits repo_merge_later fuel2 args_tutorial = Ok v2 →
     v2 = visited {| visited := visited_merge; reads := ["C"; "B"; "A"; "D"] |} ∧
     dom v2 = dom (visited {| visited := visited_merge; reads := ["C"; "B"; "A"; "D"] |}) ∧
     ∀ k, children <$> v2 !! k =
          children <$> visited {| visited := visited_merge;
                                  reads := ["C"; "B"; "A"; "D"] |} !! k).
Proof.
  apply (listCommits_deterministic repo_merge repo_merge_later "/tutorial/.git"
           args_tutorial (new_FileSystem (Some tt)) (list_to_set []) ["C"; "D"] 3).
  - reflexivity.
  - reflexivity.
  - reflexivity.
  - reflexivity.
  - vm_compute. reflexivity.
  - intros oid Hoid. simpl in Hoid. set_unfold. destruct_or?; subst;
      (split; [reflexivity|intros o [= <-]; split; reflexivity]).
Defined.
